(** * PPO trainer: a shallow embedding of [ppo_trainer.py]

    The development follows the source file top to bottom: the arithmetic of
    tensor elements, the generalized advantage estimator ([compute_gae]), the
    action-space dispatch of [PPOTrainer.__init__], the epoch loop of
    [train_step], the rollout collector, the two action distributions and
    checkpoint loading.

    Numbers.  The estimator only adds, subtracts and multiplies tensor
    elements, so it is written once over an interface [TensorArith] and
    instantiated with the exact rationals [Q] where a statement needs the ring
    laws.  The distributions need [exp] and [ln] and are written over [R].
    Rounding and overflow of 32-bit floats are outside the model. *)

From Stdlib Require Import QArith Qabs Qfield Reals Lra Lia Psatz.
From stdpp Require Import base option list gmap strings pretty.

(** ** Tensor elements *)

(** The operations the estimator applies to tensor elements.  [tzero] is the
    fill value of [torch.zeros_like] and the initial [last_gae = 0]; [tone] is
    the literal [1] of [1 - dones[t]]. *)
Class TensorArith (T : Type) := {
  tzero : T;
  tone : T;
  tadd : T -> T -> T;
  tsub : T -> T -> T;
  tmul : T -> T -> T
}.

#[export] Instance Q_arith : TensorArith Q := {
  tzero := 0%Q;
  tone := 1%Q;
  tadd := Qplus;
  tsub := Qminus;
  tmul := Qmult
}.

(** An element-wise binary operation on one-dimensional tensors, with
    torch's broadcasting: equal sizes, or one operand of size one; any other
    pair of sizes raises, which is [None] here. *)
Definition broadcast2 {A B C} (f : A -> B -> C) (a : list A) (b : list B)
    : option (list C) :=
  if decide (length a = length b) then Some (zip_with f a b)
  else match a, b with
       | [x], _ => Some (map (f x) b)
       | _, [y] => Some (map (fun x => f x y) a)
       | _, _ => None
       end.

(** [a + b] on one-dimensional tensors. *)
Definition tensor_add {T} `{TensorArith T} (a b : list T) : option (list T) :=
  broadcast2 tadd a b.

(** ** Generalized advantage estimation *)

Section GAE.
Context {T : Type} {arith : TensorArith T}.

(** [self.gamma] and [self.gae_lambda]. *)
Variables (gamma gae_lambda : T).

(** [rewards[t] + self.gamma * next_value_t * (1 - dones[t]) - values[t]],
    with Python's left-to-right grouping. *)
Definition gae_delta (r next_value_t d v : T) : T :=
  tsub (tadd r (tmul (tmul gamma next_value_t) (tsub tone d))) v.

(** [delta + self.gamma * self.gae_lambda * (1 - dones[t]) * last_gae]. *)
Definition gae_step (delta d last_gae : T) : T :=
  tadd delta (tmul (tmul (tmul gamma gae_lambda) (tsub tone d)) last_gae).

(** [next_value] at the last index, [values[t + 1]] elsewhere. *)
Definition next_value_at (rewards values : list T) (next_value : T)
    (t : nat) : option T :=
  if decide (t = length rewards - 1) then Some next_value
  else values !! (t + 1).

(** The body of [for t in reversed(range(len(rewards)))], run for the
    indices [n-1, ..., 0].  An index outside a tensor raises [IndexError],
    which is [None]. *)
Fixpoint gae_loop (rewards values dones : list T) (next_value : T)
    (n : nat) (advantages : list T) (last_gae : T) : option (list T * T) :=
  match n with
  | O => Some (advantages, last_gae)
  | S t =>
      next_value_t ← next_value_at rewards values next_value t;
      r ← rewards !! t;
      d ← dones !! t;
      v ← values !! t;
      let delta := gae_delta r next_value_t d v in
      let g := gae_step delta d last_gae in
      gae_loop rewards values dones next_value t (<[t := g]> advantages) g
  end.

Definition compute_gae (rewards values dones : list T) (next_value : T)
    : option (list T * list T) :=
  let advantages := replicate (length rewards) tzero in
  '(advantages, _) ← gae_loop rewards values dones next_value
                        (length rewards) advantages tzero;
  returns ← tensor_add advantages values;
  Some (advantages, returns).

End GAE.

(** A 0/1 tensor element for a Python [bool], as [torch.FloatTensor(dones)]
    converts the recorded flags in [train]. *)
Definition float_of_bool {T} `{TensorArith T} (b : bool) : T :=
  if b then tone else tzero.

(** ** Action-space dispatch of [PPOTrainer.__init__] *)

(** The gymnasium spaces the constructor tells apart by [isinstance]; every
    other space class is [OtherSpace].  [nvec] is the (one-dimensional)
    vector of per-dimension cardinalities, [n] the size of a single discrete
    space, [shape] the shape tuple of a box, which may be empty.  A
    [MultiDiscrete] space whose [nvec] is an array of several axes is not
    among the spaces held here. *)
Inductive ActionSpace :=
| MultiDiscrete (nvec : list nat)
| Discrete (n : nat)
| Box (shape : list nat)
| OtherSpace (name : string).

(** [self.n_logits] ([None] for a box), [self.action_dim], [self.discrete]. *)
Record ActionLayout := {
  n_logits : option (list nat);
  action_dim : nat;
  discrete : bool
}.

Inductive InitError :=
| NotImplementedError (space : ActionSpace)
| IndexError.

(** Lines 142-155.  [shape[0]] of an empty shape tuple raises
    [IndexError]. *)
Definition init_action_space (space : ActionSpace) : InitError + ActionLayout :=
  match space with
  | MultiDiscrete nvec =>
      inr {| n_logits := Some nvec; action_dim := length nvec; discrete := true |}
  | Discrete n =>
      inr {| n_logits := Some [n]; action_dim := 1; discrete := true |}
  | Box shape =>
      match shape with
      | d :: _ => inr {| n_logits := None; action_dim := d; discrete := false |}
      | [] => inl IndexError
      end
  | OtherSpace _ => inl (NotImplementedError space)
  end.

(** Width of the actor's last layer:
    [np.sum(n_actions_per_dim) if discrete else action_dim * 2]. *)
Definition actor_out_features (layout : ActionLayout) : nat :=
  if discrete layout then sum_list (default [] (n_logits layout))
  else action_dim layout * 2.

(** The space classes that the [isinstance] chain of the constructor
    names. *)
Definition named_space_class (space : ActionSpace) : bool :=
  match space with
  | MultiDiscrete _ | Discrete _ | Box _ => true
  | OtherSpace _ => false
  end.

(** ** The epoch loop of [train_step] *)

(** [np.mean] of a Python list; [None] stands for the [nan] it gives on an
    empty list. *)
Definition np_mean (l : list Q) : option Q :=
  match l with
  | [] => None
  | _ => Some (foldr Qplus 0%Q l / inject_Z (Z.of_nat (length l)))%Q
  end.

(** [a > b] on numbers. *)
Definition Qgt_bool (a b : Q) : bool := negb (Qle_bool a b).

Section TrainStep.
(** [Params] holds the weights of actor and critic and the state of both
    optimizers. *)
Context {Params : Type}.
Variable target_kl : Q.
(** [compute_ppo_loss] on the batch of this call (converted to tensors, the
    advantages normalized): the [.item()] of the total loss and of the value
    loss, and [kl_div]. *)
Variable compute_ppo_loss : Params -> Q * Q * Q.
(** Lines 350-356: both [zero_grad], [backward] of the total loss just
    computed from the parameters, both [clip_grad_norm_], both [step]. *)
Variable optimizer_step : Params -> Params.

(** The variables the loop updates; [n_steps] counts the passes through
    lines 350-356. *)
Record EpochState := {
  params : Params;
  total_losses : list Q;
  value_losses : list Q;
  kl_divs : list Q;
  n_steps : nat
}.

(** [for epoch in range(epochs)], lines 333-356. *)
Fixpoint epoch_loop (epochs : nat) (st : EpochState) : EpochState :=
  match epochs with
  | O => st
  | S epochs' =>
      let '(total_loss, value_loss, kl_div) := compute_ppo_loss (params st) in
      let total_losses' := total_losses st ++ [total_loss] in
      let value_losses' := value_losses st ++ [value_loss] in
      let kl_divs' := kl_divs st ++ [kl_div] in
      if Qgt_bool kl_div ((3 # 2) * target_kl)%Q then
        {| params := params st;
           total_losses := total_losses';
           value_losses := value_losses';
           kl_divs := kl_divs';
           n_steps := n_steps st |}
      else
        epoch_loop epochs'
          {| params := optimizer_step (params st);
             total_losses := total_losses';
             value_losses := value_losses';
             kl_divs := kl_divs';
             n_steps := S (n_steps st) |}
  end.

(** The returned dictionary, keys ['total_loss'], ['value_loss'],
    ['kl_div']. *)
Record Metrics := {
  total_loss : option Q;
  value_loss : option Q;
  kl_div : option Q
}.

Definition train_step_state (theta : Params) : EpochState :=
  epoch_loop 10
    {| params := theta; total_losses := []; value_losses := [];
       kl_divs := []; n_steps := 0 |}.

(** [train_step]: the parameters it leaves behind and the dictionary it
    returns. *)
Definition train_step (theta : Params) : Params * Metrics :=
  let st := train_step_state theta in
  (params st,
   {| total_loss := np_mean (total_losses st);
      value_loss := np_mean (value_losses st);
      kl_div := np_mean (kl_divs st) |}).

(** The parameters after [j] gradient steps, and the three numbers
    [compute_ppo_loss] gives there. *)
Definition params_after (theta : Params) (j : nat) : Params :=
  Nat.iter j optimizer_step theta.
Definition total_loss_at (theta : Params) (j : nat) : Q :=
  (compute_ppo_loss (params_after theta j)).1.1.
Definition value_loss_at (theta : Params) (j : nat) : Q :=
  (compute_ppo_loss (params_after theta j)).1.2.
Definition kl_at (theta : Params) (j : nat) : Q :=
  (compute_ppo_loss (params_after theta j)).2.

(** The loop variables at the start of epoch [j] when no earlier epoch
    stopped the loop. *)
Definition epoch_start (theta : Params) (j : nat) : EpochState :=
  {| params := params_after theta j;
     total_losses := map (total_loss_at theta) (seq 0 j);
     value_losses := map (value_loss_at theta) (seq 0 j);
     kl_divs := map (kl_at theta) (seq 0 j);
     n_steps := j |}.

(** The loop variables when epoch [k] stops the loop: its three numbers are
    logged, its gradient step is not taken. *)
Definition epoch_stop (theta : Params) (k : nat) : EpochState :=
  {| params := params_after theta k;
     total_losses := map (total_loss_at theta) (seq 0 (S k));
     value_losses := map (value_loss_at theta) (seq 0 (S k));
     kl_divs := map (kl_at theta) (seq 0 (S k));
     n_steps := k |}.

End TrainStep.

(** ** Rollout collection *)

Section Rollout.
Context {T : Type} {arith : TensorArith T}.
Context {Obs Act EnvState Rng : Type}.

(** What [env.step] returns, without [info]. *)
Record StepResult := {
  next_state : Obs;
  reward : T;
  terminated : bool;
  truncated : bool
}.

(** The calls made on the environment, with what they returned. *)
Inductive EnvCall :=
| CallReset (obs : Obs)
| CallStep (action : Act) (res : StepResult).

(** [env.reset()] and [env.step(action)] as transitions of the environment's
    own state. *)
Variable env_reset : EnvState -> Obs * EnvState.
Variable env_step : EnvState -> Act -> StepResult * EnvState.
(** Lines 389-398: build the distribution of the current actor at one
    observation, sample an action, take its joint log-probability.  The
    random generator is threaded through. *)
Variable policy_sample : Rng -> Obs -> Act * T * Rng.
(** [self.critic] at one observation. *)
Variable critic : Obs -> T.

(** The variables of [collect_rollout]; [calls] lists the environment calls
    made so far, oldest first. *)
Record Collector := {
  env : EnvState;
  rng : Rng;
  calls : list EnvCall;
  state : Obs;
  states : list Obs;
  actions : list Act;
  rewards : list T;
  values : list T;
  log_probs : list T;
  dones : list bool;
  episode_rewards : list T;
  current_episode_reward : T
}.

(** One pass through the body of the loop, lines 385-423. *)
Definition rollout_step (c : Collector) : Collector :=
  let '(action, log_prob, rng') := policy_sample (rng c) (state c) in
  let value := critic (state c) in
  let '(res, env') := env_step (env c) action in
  let calls' := calls c ++ [CallStep action res] in
  let states' := states c ++ [state c] in
  let actions' := actions c ++ [action] in
  let rewards' := rewards c ++ [reward res] in
  let values' := values c ++ [value] in
  let log_probs' := log_probs c ++ [log_prob] in
  let dones' := dones c ++ [terminated res] in
  let current := tadd (current_episode_reward c) (reward res) in
  if terminated res || truncated res then
    let '(obs, env'') := env_reset env' in
    {| env := env''; rng := rng'; calls := calls' ++ [CallReset obs];
       state := obs;
       states := states'; actions := actions'; rewards := rewards';
       values := values'; log_probs := log_probs'; dones := dones';
       episode_rewards := episode_rewards c ++ [current];
       current_episode_reward := tzero |}
  else
    {| env := env'; rng := rng'; calls := calls';
       state := next_state res;
       states := states'; actions := actions'; rewards := rewards';
       values := values'; log_probs := log_probs'; dones := dones';
       episode_rewards := episode_rewards c;
       current_episode_reward := current |}.

(** Lines 371-382: empty buffers and the first [env.reset()]. *)
Definition rollout_init (e : EnvState) (g : Rng) : Collector :=
  let '(obs, e0) := env_reset e in
  {| env := e0; rng := g; calls := [CallReset obs]; state := obs;
     states := []; actions := []; rewards := []; values := [];
     log_probs := []; dones := [];
     episode_rewards := []; current_episode_reward := tzero |}.

(** [collect_rollout]: the buffers after [max_steps] passes, and
    [final_value], the critic at the last [state]. *)
Definition collect_rollout (max_steps : nat) (e : EnvState) (g : Rng)
    : Collector * T :=
  let c := Nat.iter max_steps rollout_step (rollout_init e g) in
  (c, critic (state c)).

(** Lines 452-460 of [train]: the estimator on what the rollout returned. *)
Definition rollout_gae (gamma gae_lambda : T) (ro : Collector * T)
    : option (list T * list T) :=
  compute_gae gamma gae_lambda (rewards ro.1) (values ro.1)
    (map float_of_bool (dones ro.1)) ro.2.

(** The results of the steps among the calls, in order. *)
Definition step_results (log : list EnvCall) : list StepResult :=
  omap (fun c => match c with CallStep _ r => Some r | CallReset _ => None end) log.

(** One pass seen from the environment: the action stepped, what the step
    returned, and the observation of the reset that followed, if any. *)
Record Pass := {
  pass_action : Act;
  pass_result : StepResult;
  pass_reset : option Obs
}.

(** The calls one pass makes. *)
Definition pass_calls (p : Pass) : list EnvCall :=
  CallStep (pass_action p) (pass_result p)
  :: match pass_reset p with Some obs => [CallReset obs] | None => [] end.

(** A reset follows exactly the steps that report [terminated] or
    [truncated]. *)
Definition pass_resets_on_end (p : Pass) : Prop :=
  is_Some (pass_reset p) <->
  terminated (pass_result p) || truncated (pass_result p) = true.

(** The observation the collector holds after a pass: the reset observation
    when the pass reset the environment, the step's [next_state]
    otherwise. *)
Definition obs_after_pass (p : Pass) : Obs :=
  match pass_reset p with
  | Some obs => obs
  | None => next_state (pass_result p)
  end.

(** The collector [c] is what [k] passes [passes], started from the first
    reset observation [obs0], leave behind. *)
Definition collected (k : nat) (c : Collector) (obs0 : Obs)
    (passes : list Pass) : Prop :=
  calls c = CallReset obs0 :: flat_map pass_calls passes /\
  length passes = k /\
  Forall pass_resets_on_end passes /\
  states c ++ [state c] = obs0 :: map obs_after_pass passes /\
  actions c = map pass_action passes /\
  rewards c = map (fun p => reward (pass_result p)) passes /\
  values c = map critic (states c) /\
  length (log_probs c) = k /\
  dones c = map (fun p => terminated (pass_result p)) passes.

(** The calls [log], made in this order on an environment that starts in
    state [e], are answered as logged and leave it in state [e']: every
    logged observation is the one [env.reset()] returned and every logged
    result the one [env.step(action)] returned, in the state the environment
    was in at that call. *)
Fixpoint env_run (e : EnvState) (log : list EnvCall) (e' : EnvState) : Prop :=
  match log with
  | [] => e' = e
  | CallReset obs :: log' =>
      (env_reset e).1 = obs /\ env_run (env_reset e).2 log' e'
  | CallStep action res :: log' =>
      (env_step e action).1 = res /\ env_run (env_step e action).2 log' e'
  end.

(** The actions [acts] with the log-probabilities [lps] are what the policy
    sampled at the observations [obs], one after the other, the generator
    going from [g] to [g']. *)
Fixpoint policy_run (g : Rng) (obs : list Obs) (acts : list Act)
    (lps : list T) (g' : Rng) : Prop :=
  match obs, acts, lps with
  | [], [], [] => g' = g
  | o :: obs', a :: acts', lp :: lps' =>
      (policy_sample g o).1 = (a, lp) /\
      policy_run (policy_sample g o).2 obs' acts' lps' g'
  | _, _, _ => False
  end.

(** What the collector [c] logs and records is what environment and policy
    returned since [collect_rollout] was entered with the environment in
    state [e] and the generator in state [g]: the calls are a run of the
    environment from [e] to the state it is in now, the recorded actions and
    log-probabilities a run of the policy at the recorded states. *)
Definition runs_of (e : EnvState) (g : Rng) (c : Collector) : Prop :=
  env_run e (calls c) (env c) /\
  policy_run g (states c) (actions c) (log_probs c) (rng c).
End Rollout.

(** ** Action distributions *)

(** Sums and means of real tensors.  [tensor_mean] is [None] where torch
    gives [nan], on a tensor without elements. *)
Definition tensor_sum (l : list R) : R := foldr Rplus 0%R l.

Definition tensor_mean (l : list R) : option R :=
  match l with
  | [] => None
  | _ => Some (tensor_sum l / INR (length l))%R
  end.

(** [torch.stack(xs, dim=-1).sum(dim=-1)] on a list of scalars; stacking an
    empty list raises. *)
Definition stack_sum (xs : list R) : option R :=
  match xs with
  | [] => None
  | _ => Some (tensor_sum xs)
  end.

(** [torch.split(logits, sizes, dim=-1)]: consecutive chunks of the given
    sizes, which must add up to the length. *)
Fixpoint torch_split (l : list R) (sizes : list nat) : option (list (list R)) :=
  match sizes with
  | [] => match l with [] => Some [] | _ => None end
  | n :: sizes' =>
      if decide (n <= length l) then
        rest ← torch_split (drop n l) sizes';
        Some (take n l :: rest)
      else None
  end.

(** [torch.argmax] over one dimension: the first index of a greatest
    element; it raises on an empty dimension. *)
Fixpoint argmax_from (best_i : nat) (best : R) (i : nat) (l : list R) : nat :=
  match l with
  | [] => best_i
  | x :: l' =>
      if Rlt_dec best x then argmax_from i x (S i) l'
      else argmax_from best_i best (S i) l'
  end.

Definition argmax (l : list R) : option nat :=
  match l with
  | [] => None
  | x :: l' => Some (argmax_from 0 x 1 l')
  end.

(** [torch.distributions.Categorical] built from logits, for one batch
    element. *)
Module Categorical.
Local Open Scope R_scope.

Definition logsumexp (l : list R) : R := ln (tensor_sum (map exp l)).

Definition softmax (l : list R) : list R :=
  let z := tensor_sum (map exp l) in map (fun x => exp x / z) l.

(** [logits] holds [self.logits], normalized at construction. *)
Record t := { logits : list R }.

Definition init (raw : list R) : t :=
  {| logits := map (fun x => x - logsumexp raw) raw |}.

Definition probs (d : t) : list R := softmax (logits d).

(** The entry of [logits] at the value; a value outside the support
    raises. *)
Definition log_prob (d : t) (value : nat) : option R := logits d !! value.

(** [torch.finfo(torch.float32).min]. *)
Definition min_real : R := - ((2 - / 2 ^ 23) * 2 ^ 127).

Definition entropy (d : t) : R :=
  - tensor_sum (zip_with Rmult (map (fun x => Rmax x min_real) (logits d))
                               (probs d)).

(** [_kl_categorical_categorical]: the sum of [p.probs * (p.logits -
    q.logits)].  The two masks of the torch function select the entries
    where a probability is zero; [exp] is positive on [R], so they select
    nothing.  Two distributions over different numbers of categories are
    outside the model. *)
Definition kl_divergence (p q : t) : option R :=
  if decide (length (logits p) = length (logits q)) then
    Some (tensor_sum (zip_with Rmult (probs p)
                        (zip_with Rminus (logits p) (logits q))))
  else None.
End Categorical.

(** The class [MultiCategorical] of the source, lines 38-68, for one batch
    element. *)
Module MultiCategorical.
Local Open Scope R_scope.

Record t := {
  nvec : list nat;
  split_logits : list (list R);
  categoricals : list Categorical.t
}.

Definition init (logits : list R) (nvec : list nat) : option t :=
  split_logits ← torch_split logits nvec;
  Some {| nvec := nvec;
          split_logits := split_logits;
          categoricals := map Categorical.init split_logits |}.

(** [actions[..., i]] raises when the action has no component [i]. *)
Definition log_prob (m : t) (actions : list nat) : option R :=
  log_probs ← mapM (fun x => x)
    (imap (fun i dist => a ← actions !! i; Categorical.log_prob dist a)
          (categoricals m));
  stack_sum log_probs.

Definition entropy (m : t) : option R :=
  stack_sum (map Categorical.entropy (categoricals m)).

Definition mode (m : t) : option (list nat) :=
  modes ← mapM argmax (split_logits m);
  match modes with
  | [] => None
  | _ => Some modes
  end.

(** [_kl_multi], lines 71-75: Python's [sum] starts from [0] and adds from
    the left. *)
Definition _kl_multi (m1 m2 : t) : option R :=
  kls ← mapM (fun dd => Categorical.kl_divergence dd.1 dd.2)
             (zip (categoricals m1) (categoricals m2));
  Some (fold_left Rplus kls 0).
End MultiCategorical.

(** [torch.distributions.Normal], one element.  [scale] is [exp] of a
    log-std in this program, hence positive. *)
Module Normal.
Local Open Scope R_scope.

Record t := { loc : R; scale : R }.

Definition log_prob (d : t) (value : R) : R :=
  (- ((value - loc d) ^ 2)) / (2 * scale d ^ 2) - ln (scale d)
  - ln (sqrt (2 * PI)).

Definition entropy (d : t) : R :=
  (1 / 2) + (1 / 2) * ln (2 * PI) + ln (scale d).
End Normal.

(** The logits of dimension [i] when a vector of logits is partitioned by
    the cardinalities [nvec]: the [nvec[i]] entries that follow the first
    [nvec[0] + ... + nvec[i-1]].  Written from the words of section 4.1 of
    the specification, to compare with what [MultiCategorical.init]
    builds. *)
Definition dim_logits (logits : list R) (nvec : list nat) (i : nat) : list R :=
  take (default 0 (nvec !! i)) (drop (sum_list (take i nvec)) logits).

(** ** The loss of [compute_ppo_loss] *)

(** An element-wise operation on two-dimensional tensors (rows of a batch),
    broadcasting in both dimensions. *)
Definition elementwise2 {A B C} (f : A -> B -> C)
    (x : list (list A)) (y : list (list B)) : option (list (list C)) :=
  rows ← broadcast2 (broadcast2 f) x y;
  mapM (fun r => r) rows.

(** What [self.actor(states)] returns on a batch: logits for a discrete
    trainer, the two halves [mean] and [log_std] (of one shape) for a
    continuous one. *)
Inductive ActorOutput :=
| Logits (logits : list (list R))
| MeanLogStd (mean log_std : list (list R)).

(** The stored actions of a batch: indices per dimension, or reals. *)
Inductive ActionBatch :=
| Indices (a : list (list nat))
| Reals (a : list (list R)).

Section PPOLoss.
Local Open Scope R_scope.
Variable clip_ratio : R.

(** Lines 280-282: [Normal(mean, log_std.exp())], element by element. *)
Definition continuous_dist (mean log_std : list (list R))
    : list (list Normal.t) :=
  zip_with (zip_with (fun m ls => {| Normal.loc := m; Normal.scale := exp ls |}))
           mean log_std.

(** Line 288: [dist.log_prob(actions).sum(dim=-1)]. *)
Definition continuous_new_log_probs (dist : list (list Normal.t))
    (actions : list (list R)) : option (list R) :=
  log_probs ← elementwise2 Normal.log_prob dist actions;
  Some (map tensor_sum log_probs).

(** Line 289 for a continuous trainer: [dist.entropy()] has one entry per
    state and dimension, and [.mean()] averages over all of them. *)
Definition continuous_entropy (dist : list (list Normal.t)) : option R :=
  tensor_mean (concat (map (map Normal.entropy) dist)).

(** Lines 277-278: one [MultiCategorical] per row of logits. *)
Definition discrete_dist (logits : list (list R)) (nvec : list nat)
    : option (list MultiCategorical.t) :=
  mapM (fun row => MultiCategorical.init row nvec) logits.

(** Line 286. *)
Definition discrete_new_log_probs (dist : list MultiCategorical.t)
    (actions : list (list nat)) : option (list R) :=
  rows ← broadcast2 MultiCategorical.log_prob dist actions;
  mapM (fun r => r) rows.

(** Line 289 for a discrete trainer: [dist.entropy()] has one entry per
    state. *)
Definition discrete_entropy (dist : list MultiCategorical.t) : option R :=
  entropies ← mapM MultiCategorical.entropy dist;
  tensor_mean entropies.

(** [torch.clamp(x, lo, hi)]. *)
Definition clamp (x lo hi : R) : R := Rmin (Rmax x lo) hi.

(** Lines 291-306, from the new log-probabilities and the entropy on.
    [None] stands for a raised shape error or a [nan]. *)
Definition ppo_objective (new_log_probs : list R) (entropy : option R)
    (values old_log_probs advantages returns : list R)
    : option (R * R * R) :=
  diff ← broadcast2 Rminus new_log_probs old_log_probs;
  let ratio := map exp diff in
  clip_adv ← broadcast2 Rmult
    (map (fun r => clamp r (1 - clip_ratio) (1 + clip_ratio)) ratio) advantages;
  ratio_adv ← broadcast2 Rmult ratio advantages;
  surrogate ← broadcast2 Rmin ratio_adv clip_adv;
  surrogate_mean ← tensor_mean surrogate;
  let actor_loss := - surrogate_mean in
  squares ← broadcast2 (fun v r => (v - r) ^ 2) values returns;
  value_loss ← tensor_mean squares;
  entropy ← entropy;
  let total_loss := actor_loss + (1 / 2) * value_loss - (1 / 100) * entropy in
  kl_terms ← broadcast2 Rminus old_log_probs new_log_probs;
  kl_div ← tensor_mean kl_terms;
  Some (total_loss, value_loss, kl_div).

(** [compute_ppo_loss], given what actor and critic return on the batch. *)
Definition compute_ppo_loss (n_logits : option (list nat))
    (actor_out : ActorOutput) (values : list R) (actions : ActionBatch)
    (old_log_probs advantages returns : list R) : option (R * R * R) :=
  match actor_out, actions with
  | Logits logits, Indices a =>
      dist ← discrete_dist logits (default [] n_logits);
      new_log_probs ← discrete_new_log_probs dist a;
      ppo_objective new_log_probs (discrete_entropy dist)
        values old_log_probs advantages returns
  | MeanLogStd mean log_std, Reals a =>
      let dist := continuous_dist mean log_std in
      new_log_probs ← continuous_new_log_probs dist a;
      ppo_objective new_log_probs (continuous_entropy dist)
        values old_log_probs advantages returns
  | _, _ => None
  end.
End PPOLoss.

(** The entropy of the joint Gaussian of each state, that is the sum over
    its dimensions, averaged over the batch: what section 4.1 of the
    specification calls the joint entropy, written from its words to compare
    with [continuous_entropy]. *)
Definition joint_entropy_mean (dist : list (list Normal.t)) : option R :=
  tensor_mean (map (fun row => tensor_sum (map Normal.entropy row)) dist).

(** ** Checkpoint loading *)

Inductive LoadError :=
| ValueError (msg : string)
| KeyError (key : string)
| TorchLoadError
| StateDictError.

(** What a call of [load_state_dict] did to the object it was called on.  It
    returned and the object holds [new]; or it raised and the object holds
    [partial]: a module has by then copied the entries of the loaded
    dictionary that fit it, and raises for those that do not. *)
Inductive LoadResult (StateDict : Type) :=
| Loaded (new : StateDict)
| LoadFailed (partial : StateDict).
Arguments Loaded {StateDict} new.
Arguments LoadFailed {StateDict} partial.

Section LoadModel.
Context {Path StateDict : Type}.
(** [Path.cwd()], the [/] of [pathlib], [str] of a path (as an f-string
    prints it) and [Path.exists]. *)
Variable cwd : Path.
Variable path_div : Path -> string -> Path.
Variable path_str : Path -> string.
Variable path_exists : Path -> bool.
(** [torch.load]: the dictionary stored in the file; [None] when it
    raises. *)
Variable torch_load : Path -> option (gmap string StateDict).
(** [load_state_dict] of a network or optimizer, from its present state and
    the loaded one. *)
Variable load_state_dict : StateDict -> StateDict -> LoadResult StateDict.

(** The four objects of the trainer that [load_model] writes. *)
Record Trainer := {
  actor : StateDict;
  critic : StateDict;
  actor_optimizer : StateDict;
  critic_optimizer : StateDict
}.

(** Statements of [load_model] act on the trainer and may raise. *)
Definition Loader (A : Type) : Type := Trainer -> Trainer * (LoadError + A).

Definition load_ret {A} (a : A) : Loader A := fun tr => (tr, inr a).
Definition load_raise {A} (e : LoadError) : Loader A := fun tr => (tr, inl e).
Definition load_bind {A B} (m : Loader A) (k : A -> Loader B) : Loader B :=
  fun tr => match m tr with
            | (tr', inr a) => k a tr'
            | (tr', inl e) => (tr', inl e)
            end.

(** [checkpoint[key]]. *)
Definition getitem (checkpoint : gmap string StateDict) (key : string)
    : Loader StateDict :=
  match checkpoint !! key with
  | Some sd => load_ret sd
  | None => load_raise (KeyError key)
  end.

(** [obj.load_state_dict(sd)] for one of the four objects. *)
Definition load_into (get : Trainer -> StateDict)
    (set : StateDict -> Trainer -> Trainer) (sd : StateDict) : Loader unit :=
  fun tr => match load_state_dict (get tr) sd with
            | Loaded new => (set new tr, inr tt)
            | LoadFailed partial => (set partial tr, inl StateDictError)
            end.

Definition set_actor (x : StateDict) (tr : Trainer) : Trainer :=
  {| actor := x; critic := critic tr;
     actor_optimizer := actor_optimizer tr;
     critic_optimizer := critic_optimizer tr |}.
Definition set_critic (x : StateDict) (tr : Trainer) : Trainer :=
  {| actor := actor tr; critic := x;
     actor_optimizer := actor_optimizer tr;
     critic_optimizer := critic_optimizer tr |}.
Definition set_actor_optimizer (x : StateDict) (tr : Trainer) : Trainer :=
  {| actor := actor tr; critic := critic tr;
     actor_optimizer := x;
     critic_optimizer := critic_optimizer tr |}.
Definition set_critic_optimizer (x : StateDict) (tr : Trainer) : Trainer :=
  {| actor := actor tr; critic := critic tr;
     actor_optimizer := actor_optimizer tr;
     critic_optimizer := x |}.

(** [checkpoint_root / filename]. *)
Definition checkpoint_path (filename : string) : Path :=
  path_div (path_div cwd "checkpoints") filename.

Definition missing_message (path : Path) : string :=
  "Checkpoint " ++ path_str path ++ " doesn't exist!".

(** Lines 539-549. *)
Definition load_model (filename : string) : Loader unit :=
  let path := checkpoint_path filename in
  if negb (path_exists path) then load_raise (ValueError (missing_message path))
  else
    match torch_load path with
    | None => load_raise TorchLoadError
    | Some checkpoint =>
        load_bind (getitem checkpoint "actor_state_dict") (fun sd =>
        load_bind (load_into actor set_actor sd) (fun _ =>
        load_bind (getitem checkpoint "critic_state_dict") (fun sd =>
        load_bind (load_into critic set_critic sd) (fun _ =>
        load_bind (getitem checkpoint "actor_optimizer_state_dict") (fun sd =>
        load_bind (load_into actor_optimizer set_actor_optimizer sd) (fun _ =>
        load_bind (getitem checkpoint "critic_optimizer_state_dict") (fun sd =>
        load_into critic_optimizer set_critic_optimizer sd)))))))
    end.
End LoadModel.

(** ** Small instances *)

(** A loss whose KL is the number of gradient steps taken so far, on
    parameters that only count the steps. *)
Definition counting_loss (theta : nat) : Q * Q * Q :=
  (5 # 1, 2 # 1, inject_Z (Z.of_nat theta))%Q.

(** An environment with a time limit of two steps per episode and no
    terminal state: the environment state and the observation count the
    steps of the episode, every reward is 1. *)
Definition timelimit_reset (e : nat) : nat * nat := (0, 0).

Definition timelimit_step (e : nat) (a : unit) : @StepResult Q nat * nat :=
  ({| next_state := S e; reward := 1%Q; terminated := false;
      truncated := bool_decide (S e = 2) |}, S e).

(** A policy with one action, and a critic that tells observations apart. *)
Definition unit_policy (g : unit) (obs : nat) : unit * Q * unit :=
  (tt, 0%Q, g).

Definition counting_critic (obs : nat) : Q := inject_Z (Z.of_nat (10 + obs)).

(** Two steps in that environment: the second one hits the time limit. *)
Definition timelimit_rollout : @Collector Q nat unit nat unit * Q :=
  collect_rollout timelimit_reset timelimit_step unit_policy counting_critic
    2 0 tt.

(** A file system with one checkpoint file, whose state dictionaries are
    numbers; paths are strings and [load_state_dict] always succeeds. *)
Definition string_path_div (p : string) (q : string) : string :=
  p ++ "/" ++ q.

Definition one_file_exists (p : string) : bool :=
  bool_decide (p = "/work/checkpoints/ppo_latest.pth").

Definition one_file_load (p : string) : option (gmap string nat) :=
  if one_file_exists p then
    Some (<["actor_state_dict" := 1]>
          (<["critic_state_dict" := 2]>
           (<["actor_optimizer_state_dict" := 3]>
            (<["critic_optimizer_state_dict" := 4]> ∅))))
  else None.

Definition replace_state (old new : nat) : LoadResult nat := Loaded new.

Definition fresh_trainer : @Trainer nat :=
  {| actor := 0; critic := 0; actor_optimizer := 0; critic_optimizer := 0 |}.

(** ** The epoch loop when the loss is not a number or raises *)

(** A Python float as [train_step] logs and compares it: a number, an
    infinity or [nan]. *)
Inductive PyFloat :=
| Finite (q : Q)
| PosInf
| NegInf
| NaN.

(** [x > b] for a float [x] and a number [b]; a comparison with [nan] is
    false. *)
Definition float_gt (x : PyFloat) (b : Q) : bool :=
  match x with
  | Finite q => Qgt_bool q b
  | PosInf => true
  | NegInf | NaN => false
  end.

Module Raising.
Section TrainStep.
Context {Params Exn : Type}.
Variable target_kl : Q.
(** [compute_ppo_loss] on the batch of this call: the [.item()] of the total
    loss and of the value loss, and [kl_div]; or the exception it raises, as
    a distribution does when it is built from parameters that are [nan]. *)
Variable compute_ppo_loss : Params -> Exn + PyFloat * PyFloat * PyFloat.
(** Lines 350-356: the parameters they leave behind, and the exception when
    one of them raises. *)
Variable optimizer_step : Params -> Params * option Exn.

Record EpochState := {
  params : Params;
  total_losses : list PyFloat;
  value_losses : list PyFloat;
  kl_divs : list PyFloat;
  n_steps : nat
}.

(** [for epoch in range(epochs)], lines 333-356: the variables when the loop
    is left, and the exception when it is left by one. *)
Fixpoint epoch_loop (epochs : nat) (st : EpochState)
    : EpochState * option Exn :=
  match epochs with
  | O => (st, None)
  | S epochs' =>
      match compute_ppo_loss (params st) with
      | inl exn => (st, Some exn)
      | inr (total_loss, value_loss, kl_div) =>
          let total_losses' := total_losses st ++ [total_loss] in
          let value_losses' := value_losses st ++ [value_loss] in
          let kl_divs' := kl_divs st ++ [kl_div] in
          if float_gt kl_div ((3 # 2) * target_kl)%Q then
            ({| params := params st;
                total_losses := total_losses';
                value_losses := value_losses';
                kl_divs := kl_divs';
                n_steps := n_steps st |}, None)
          else
            match optimizer_step (params st) with
            | (theta', Some exn) =>
                ({| params := theta';
                    total_losses := total_losses';
                    value_losses := value_losses';
                    kl_divs := kl_divs';
                    n_steps := n_steps st |}, Some exn)
            | (theta', None) =>
                epoch_loop epochs'
                  {| params := theta';
                     total_losses := total_losses';
                     value_losses := value_losses';
                     kl_divs := kl_divs';
                     n_steps := S (n_steps st) |}
            end
      end
  end.

(** Lines 327-356 of [train_step]. *)
Definition train_step_state (theta : Params) : EpochState * option Exn :=
  epoch_loop 10
    {| params := theta; total_losses := []; value_losses := [];
       kl_divs := []; n_steps := 0 |}.

(** The parameters reached from [theta] by [j] gradient steps that all
    returned. *)
Fixpoint params_after (theta : Params) (j : nat) : option Params :=
  match j with
  | O => Some theta
  | S j' =>
      p ← params_after theta j';
      match optimizer_step p with
      | (p', None) => Some p'
      | (_, Some _) => None
      end
  end.

(** Entry [i] of the three lists of [st] is what [compute_ppo_loss]
    returned at the parameters reached from [theta] by [i] gradient steps;
    its KL is [kl]. *)
Definition logged_at (theta : Params) (st : EpochState) (i : nat)
    (kl : PyFloat) : Prop :=
  exists p tl vl,
    params_after theta i = Some p /\
    compute_ppo_loss p = inr (tl, vl, kl) /\
    total_losses st !! i = Some tl /\
    value_losses st !! i = Some vl /\
    kl_divs st !! i = Some kl.
End TrainStep.
End Raising.

(** The variables of the [epoch_loop] on numbers, defined further up, as
    variables of this loop. *)
Definition finite_state {Params : Type} (st : @EpochState Params)
    : @Raising.EpochState Params :=
  {| Raising.params := params st;
     Raising.total_losses := map Finite (total_losses st);
     Raising.value_losses := map Finite (value_losses st);
     Raising.kl_divs := map Finite (kl_divs st);
     Raising.n_steps := n_steps st |}.

(** A loss that returns numbers and an update that returns, as this loop
    takes them. *)
Definition finite_loss {Params Exn : Type} (loss : Params -> Q * Q * Q)
    (theta : Params) : Exn + PyFloat * PyFloat * PyFloat :=
  let '(total_loss, value_loss, kl_div) := loss theta in
  inr (Finite total_loss, Finite value_loss, Finite kl_div).

Definition returning_step {Params Exn : Type} (step : Params -> Params)
    (theta : Params) : Params * option Exn :=
  (step theta, None).

(** ** Saving checkpoints *)

Section SaveModel.
Context {Path File StateDict : Type} `{Countable File}.
Variable cwd : Path.
Variable path_div : Path -> string -> Path.
Variable path_str : Path -> string.
(** The file that the operating system reaches under a path, its [..]
    segments and links followed: [pathlib] keeps them in the path, so two
    paths that print differently may reach one file. *)
Variable resolve : Path -> File.
Variable load_state_dict : StateDict -> StateDict -> LoadResult StateDict.

(** The dictionary that [save_model] hands to [torch.save], its four keys
    written in the order of the source. *)
Definition checkpoint_of (tr : @Trainer StateDict) : gmap string StateDict :=
  <["critic_optimizer_state_dict" := critic_optimizer tr]>
  (<["actor_optimizer_state_dict" := actor_optimizer tr]>
   (<["critic_state_dict" := critic tr]>
    (<["actor_state_dict" := actor tr]> ∅))).

(** Lines 525-537 on a file system that maps each file to the dictionary
    stored in it.  Directories, which [os.makedirs] creates when missing,
    and failures of [torch.save] are not part of it. *)
Definition save_model (filename : string) (tr : @Trainer StateDict)
    (fs : gmap File (gmap string StateDict))
    : gmap File (gmap string StateDict) :=
  <[resolve (checkpoint_path cwd path_div filename) := checkpoint_of tr]> fs.

(** [Path.exists] and [torch.load] on that file system. *)
Definition fs_exists (fs : gmap File (gmap string StateDict)) (p : Path)
    : bool :=
  bool_decide (is_Some (fs !! resolve p)).

Definition fs_load (fs : gmap File (gmap string StateDict)) (p : Path)
    : option (gmap string StateDict) :=
  fs !! resolve p.

(** [load_model] reading from that file system. *)
Definition load_model_from (fs : gmap File (gmap string StateDict))
    (filename : string) : Loader unit :=
  load_model cwd path_div path_str (fs_exists fs) (fs_load fs)
    load_state_dict filename.
End SaveModel.

(** ** The loop of [train] *)


Section Train.
(** [World] is everything the trainer and its surroundings hold besides the
    two counters: networks, optimizers, environment, generator, log writer,
    file system. *)
Context {World : Type}.
Variables (env_name model_name : string).
(** Lines 452-476 at a given [episode_count]: a rollout, the estimator,
    [train_step] and the logging. *)
Variable update_iteration : nat -> World -> World.
(** [save_model] under a file name. *)
Variable save_checkpoint : string -> World -> World.
(** [evaluate_agent] at a given [episode_count], taken to return: what it
    leaves behind and the ['success'] entry of the last [info]. *)
Variable evaluate : nat -> World -> World * bool.




End Train.

(** A checkpoint file that holds the actor only. *)
Definition actor_only_load (p : string) : option (gmap string nat) :=
  if one_file_exists p then Some (<["actor_state_dict" := 9]> ∅) else None.


(** ** Evaluation episodes *)

(** The sum of a list of numbers. *)
Definition Qsum (l : list Q) : Q := foldr Qplus 0%Q l.

(** The number of resets among the calls on the environment. *)
Definition reset_count {T Obs Act : Type} (log : list (@EnvCall T Obs Act))
    : nat :=
  length (omap (fun c => match c with
                         | CallReset obs => Some obs
                         | CallStep _ _ => None
                         end) log).

Section Evaluate.
Context {Obs Act EnvState Rng : Type}.

(** What [env.step] returns in [evaluate_agent], with the two entries of
    [info] that are read. *)
Record EvalStep := {
  eval_next_state : Obs;
  eval_reward : Q;
  eval_terminated : bool;
  eval_truncated : bool;
  relative_distance : Q;
  success : bool
}.

(** [env.reset(options={'render': True})], [env.step] and the sampling of an
    action from the current policy. *)
Variable env_reset_render : EnvState -> Obs * EnvState.
Variable eval_env_step : EnvState -> Act -> EvalStep * EnvState.
Variable eval_policy_sample : Rng -> Obs -> Act * Rng.

(** The variables of [evaluate_agent].  [min_rel_dist] is [None] while it
    is [np.inf]; [eval_steps] lists what the steps returned, oldest first,
    its last entry carrying the current [info]. *)
Record EvalVars := {
  eval_env : EnvState;
  eval_rng : Rng;
  eval_state : Obs;
  ev_terminated : bool;
  ev_truncated : bool;
  min_rel_dist : option Q;
  episode_reward : Q;
  eval_steps : list EvalStep
}.

(** Python's [min(a, b)]: [b] when [b < a], else [a]. *)
Definition py_min (a : option Q) (b : Q) : Q :=
  match a with
  | None => b
  | Some a => if Qlt_le_dec b a then b else a
  end.

(** Lines 486-489. *)
Definition evaluate_init (e : EnvState) (g : Rng) : EvalVars :=
  let '(obs, e0) := env_reset_render e in
  {| eval_env := e0; eval_rng := g; eval_state := obs;
     ev_terminated := false; ev_truncated := false;
     min_rel_dist := None; episode_reward := 0%Q; eval_steps := [] |}.

(** The body of the loop, lines 493-503. *)
Definition evaluate_step (v : EvalVars) : EvalVars :=
  let '(action, rng') := eval_policy_sample (eval_rng v) (eval_state v) in
  let '(res, env') := eval_env_step (eval_env v) action in
  {| eval_env := env'; eval_rng := rng'; eval_state := eval_next_state res;
     ev_terminated := eval_terminated res;
     ev_truncated := eval_truncated res;
     min_rel_dist := Some (py_min (min_rel_dist v) (relative_distance res));
     episode_reward := (episode_reward v + eval_reward res)%Q;
     eval_steps := eval_steps v ++ [res] |}.

(** [while not truncated and not terminated], at most [fuel] passes; [None]
    when the episode has not ended by then. *)
Fixpoint evaluate_loop (fuel : nat) (v : EvalVars) : option EvalVars :=
  if negb (ev_truncated v) && negb (ev_terminated v) then
    match fuel with
    | O => None
    | S fuel' => evaluate_loop fuel' (evaluate_step v)
    end
  else Some v.

(** [evaluate_agent] up to the update of [success_count], lines 486-510:
    the final variables and the new counter.  The [info] read after the loop
    is the one of the last step. *)
Definition evaluate_agent (fuel success_count : nat) (e : EnvState) (g : Rng)
    : option (EvalVars * nat) :=
  v ← evaluate_loop fuel (evaluate_init e g);
  info ← last (eval_steps v);
  Some (v, if success info then success_count + 1 else success_count).

(** The variables after [i] passes of the body, the loop test aside. *)
Definition evaluate_run (e : EnvState) (g : Rng) (i : nat) : EvalVars :=
  Nat.iter i evaluate_step (evaluate_init e g).

(** What the variables hold after [i] passes. *)
Definition evaluate_invariant (i : nat)
    (v : EvalVars) : Prop :=
  length (eval_steps v) = i /\
  (episode_reward v == Qsum (map eval_reward (eval_steps v)))%Q /\
  ev_terminated v = from_option eval_terminated false (last (eval_steps v)) /\
  ev_truncated v = from_option eval_truncated false (last (eval_steps v)) /\
  match min_rel_dist v with
  | None => map relative_distance (eval_steps v) = []
  | Some m =>
      m ∈ map relative_distance (eval_steps v) /\
      Forall (fun d => (m <= d)%Q) (map relative_distance (eval_steps v))
  end.

(** The results [steps] are what the environment, in state [e] at first,
    returned for the actions [acts], stepped one after the other, and
    [e'] is the state it is left in. *)
Fixpoint eval_env_run (e : EnvState) (acts : list Act)
    (steps : list EvalStep) (e' : EnvState) : Prop :=
  match acts, steps with
  | [], [] => e' = e
  | a :: acts', res :: steps' =>
      (eval_env_step e a).1 = res /\
      eval_env_run (eval_env_step e a).2 acts' steps' e'
  | _, _ => False
  end.

(** The actions [acts] are what the policy sampled at the observations
    [obs], one after the other, the generator going from [g] to [g']. *)
Fixpoint eval_policy_run (g : Rng) (obs : list Obs) (acts : list Act)
    (g' : Rng) : Prop :=
  match obs, acts with
  | [], [] => g' = g
  | o :: obs', a :: acts' =>
      (eval_policy_sample g o).1 = a /\
      eval_policy_run (eval_policy_sample g o).2 obs' acts' g'
  | _, _ => False
  end.

(** The variables [v] come from playing the environment entered in state
    [e] with the generator in state [g]: the logged steps are the
    environment's answers, after its reset, to the actions the policy
    sampled at the reset observation and then at each step's next state;
    the state held is the last of these observations. *)
Definition played (e : EnvState) (g : Rng) (v : EvalVars) : Prop :=
  exists observations acts,
    observations ++ [eval_state v]
      = (env_reset_render e).1 :: map eval_next_state (eval_steps v) /\
    eval_policy_run g observations acts (eval_rng v) /\
    eval_env_run (env_reset_render e).2 acts (eval_steps v) (eval_env v).
End Evaluate.

(** An evaluation environment whose episode ends, terminated, with its
    third step; the distance shrinks and the last step reports success. *)
Definition three_step_eval (e : nat) (a : unit) : @EvalStep nat * nat :=
  ({| eval_next_state := S e; eval_reward := 2%Q;
      eval_terminated := bool_decide (S e = 3); eval_truncated := false;
      relative_distance := inject_Z (Z.of_nat (10 - e));
      success := bool_decide (S e = 3) |}, S e).

(** ** Advantage normalization and the actor's forward pass *)

(** [tensor.std()], with Bessel's correction as torch applies it by
    default; [None] where it is [nan], on fewer than two elements. *)
Definition torch_std (l : list R) : option R :=
  mean ← tensor_mean l;
  if decide (length l = 1) then None
  else Some (sqrt (tensor_sum (map (fun x => ((x - mean) ^ 2)%R) l)
                   / INR (length l - 1)))%R.

(** Line 325 of [train_step]:
    [(advantages - advantages.mean()) / (advantages.std() + 1e-8)], the
    subtraction and the division broadcast over the entries.  [None] when an
    entry of the result is [nan]; a tensor without elements has none, though
    its mean and its std are [nan]: the result is the empty tensor. *)
Definition normalize_advantages (advantages : list R) : option (list R) :=
  mapM (fun a =>
          mean ← tensor_mean advantages;
          std ← torch_std advantages;
          Some ((a - mean) / (std + 1 / 10 ^ 8))%R)
       advantages.

(** [torch.chunk(x, 2, dim=-1)] on a row of even width, the only width the
    last layer of a continuous actor has ([action_dim * 2]); odd widths are
    outside the model. *)
Definition torch_chunk2 (x : list R) : option (list R * list R) :=
  if Nat.even (length x) then
    Some (take (length x / 2) x, drop (length x / 2) x)
  else None.

(** [Actor.forward], lines 95-101, from the output [x] of [self.net] on a
    batch of states. *)
Definition Actor_forward (discrete : bool) (x : list (list R))
    : option ActorOutput :=
  if discrete then Some (Logits x)
  else
    halves ← mapM torch_chunk2 x;
    Some (MeanLogStd
            (map fst halves)
            (map (fun h => map (fun ls => clamp ls (-20) 2) h.2) halves)).

(** ** The camera callback of the simulator bridge *)

(** [count] consecutive chunks of [n] elements. *)
Fixpoint chunks_of {A} (n count : nat) (l : list A) : list (list A) :=
  match count with
  | O => []
  | S count' => take n l :: chunks_of n count' (drop n l)
  end.

(** [get_camera_img] of [carla_bridge.py], lines 124-128, on the raw bytes
    of a frame of the given height and width: [np.reshape] to
    [(height, width, 4)], which raises when the number of bytes is not
    [height * width * 4]; then the first three channels of every pixel, in
    reverse order. *)
Definition get_camera_img (height width : nat) (raw_data : list Byte.byte)
    : option (list (list (list Byte.byte))) :=
  if decide (length raw_data = height * width * 4) then
    let array := map (chunks_of 4 width) (chunks_of (width * 4) height raw_data) in
    let array := map (map (take 3)) array in
    Some (map (map (@rev Byte.byte)) array)
  else None.

(** * Properties *)

(** ** Facts about the estimator *)

Section GAE_facts.
Context {T : Type} {arith : TensorArith T}.
Variables (gamma gae_lambda : T).
Variables (rewards values dones : list T) (next_value : T).
Hypothesis values_len : length values = length rewards.
Hypothesis dones_len : length dones = length rewards.

Lemma next_value_at_defined t :
  t < length rewards ->
  is_Some (next_value_at rewards values next_value t).
Proof.
  intros Ht. unfold next_value_at. case_decide; [by eexists|].
  apply lookup_lt_is_Some. lia.
Qed.

(** What the loop leaves in [advantages]: the entries at and above [n] are
    untouched, and each entry below [n] is the recursion step applied to
    the entry after it ([last_gae = 0] after the last one). *)
Lemma gae_loop_recursion n advantages last_gae :
  n <= length rewards ->
  length advantages = length rewards ->
  last_gae = default tzero (advantages !! n) ->
  exists advantages' g',
    gae_loop gamma gae_lambda rewards values dones next_value
             n advantages last_gae = Some (advantages', g') /\
    length advantages' = length rewards /\
    (forall t, n <= t -> advantages' !! t = advantages !! t) /\
    (forall t, t < n ->
       exists nv r d v,
         next_value_at rewards values next_value t = Some nv /\
         rewards !! t = Some r /\ dones !! t = Some d /\
         values !! t = Some v /\
         advantages' !! t =
           Some (gae_step gamma gae_lambda (gae_delta gamma r nv d v) d
                   (default tzero (advantages' !! S t)))).
Proof.
  revert advantages last_gae.
  induction n as [|t IH]; intros advantages last_gae Hn Hlen Hg.
  - exists advantages, last_gae. repeat split; [done|]. intros t Ht. lia.
  - cbn [gae_loop].
    destruct (next_value_at_defined t) as [nv Hnv]; [lia|].
    destruct (lookup_lt_is_Some_2 rewards t) as [r Hr]; [lia|].
    destruct (lookup_lt_is_Some_2 dones t) as [d Hd]; [lia|].
    destruct (lookup_lt_is_Some_2 values t) as [v Hv]; [lia|].
    rewrite Hnv, Hr, Hd, Hv. cbn.
    set (g := gae_step gamma gae_lambda (gae_delta gamma r nv d v) d last_gae).
    destruct (IH (<[t := g]> advantages) g) as (adv' & g' & Hrun & Hlen' & Hkeep & Hrec).
    + lia.
    + by rewrite length_insert.
    + rewrite list_lookup_insert_eq; [done|lia].
    + exists adv', g'. split; [done|]. split; [done|]. split.
      * intros t' Ht'. rewrite Hkeep by lia.
        apply list_lookup_insert_ne. lia.
      * intros t' Ht'. destruct (decide (t' = t)) as [->|Hne].
        -- exists nv, r, d, v. repeat split; try done.
           rewrite Hkeep by lia.
           rewrite list_lookup_insert_eq by lia.
           rewrite (Hkeep (S t)) by lia.
           rewrite list_lookup_insert_ne by lia.
           by rewrite <- Hg.
        -- apply Hrec. lia.
Qed.

(** The loop of [compute_gae] runs to completion on tensors of one length
    and fills every index by the recursion. *)
Lemma compute_gae_recursion :
  exists advantages returns,
    compute_gae gamma gae_lambda rewards values dones next_value
      = Some (advantages, returns) /\
    length advantages = length rewards /\
    returns = zip_with tadd advantages values /\
    (forall t, t < length rewards ->
       exists nv r d v,
         next_value_at rewards values next_value t = Some nv /\
         rewards !! t = Some r /\ dones !! t = Some d /\
         values !! t = Some v /\
         advantages !! t =
           Some (gae_step gamma gae_lambda (gae_delta gamma r nv d v) d
                   (default tzero (advantages !! S t)))).
Proof.
  destruct (gae_loop_recursion (length rewards)
              (replicate (length rewards) tzero) tzero)
    as (adv & g & Hrun & Hlen & _ & Hrec).
  - lia.
  - apply length_replicate.
  - rewrite lookup_ge_None_2; [done|]. rewrite length_replicate. lia.
  - exists adv, (zip_with tadd adv values).
    split; [|by repeat split].
    unfold compute_gae. rewrite Hrun. cbn.
    unfold tensor_add, broadcast2. rewrite decide_True by lia. done.
Qed.
End GAE_facts.

(** C1. For rewards, values and dones of one length H and any bootstrap
    value, [compute_gae] returns a pair (advantages, returns) of two tensors
    of length H with [returns[t] = advantages[t] + values[t]] at every index
    [t < H], in whatever arithmetic the tensor elements carry. *)
Theorem compute_gae_returns_law {T : Type} {arith : TensorArith T}
    (gamma gae_lambda : T) (rewards values dones : list T) (next_value : T) :
  length values = length rewards ->
  length dones = length rewards ->
  exists advantages returns,
    compute_gae gamma gae_lambda rewards values dones next_value
      = Some (advantages, returns) /\
    length advantages = length rewards /\
    length returns = length rewards /\
    forall t, t < length rewards ->
      exists a v,
        advantages !! t = Some a /\ values !! t = Some v /\
        returns !! t = Some (tadd a v).
Proof.
  intros Hv Hd.
  destruct (compute_gae_recursion gamma gae_lambda rewards values dones
              next_value Hv Hd) as (adv & ret & Hrun & Hlen & -> & _).
  exists adv, (zip_with tadd adv values).
  split; [done|]. split; [done|]. split.
  - rewrite length_zip_with. lia.
  - intros t Ht.
    destruct (lookup_lt_is_Some_2 adv t) as [a Ha]; [lia|].
    destruct (lookup_lt_is_Some_2 values t) as [v Hv']; [lia|].
    exists a, v. split; [done|]. split; [done|].
    rewrite lookup_zip_with, Ha. cbn. by rewrite Hv'.
Qed.

Lemma compute_gae_returns_law_witness :
  exists advantages returns,
    compute_gae (99 # 100)%Q (95 # 100)%Q [1; 1; 1]%Q [0; 0; 0]%Q [0; 0; 1]%Q 0%Q
      = Some (advantages, returns) /\
    length advantages = 3 /\
    length returns = 3 /\
    forall t, t < 3 ->
      exists a v,
        advantages !! t = Some a /\ [0; 0; 0]%Q !! t = Some v /\
        returns !! t = Some (tadd a v).
Proof.
  apply (compute_gae_returns_law (99 # 100)%Q (95 # 100)%Q
           [1; 1; 1]%Q [0; 0; 0]%Q [0; 0; 1]%Q 0%Q); reflexivity.
Defined.

(** *** The concrete scenario *)

(** Against C5 as stated: the first advantage of the scenario is
    2.82504025, further than one thousandth from the value 2.8273 printed
    for it. *)
Lemma gae_concrete_scenario_A0_not_2_8273 :
  exists advantages returns a0,
    compute_gae (99 # 100)%Q (95 # 100)%Q [1; 1; 1]%Q [0; 0; 0]%Q [0; 0; 1]%Q 0%Q
      = Some (advantages, returns) /\
    advantages !! 0 = Some a0 /\
    ~ (Qabs (a0 - (28273 # 10000)) <= 1 # 1000)%Q.
Proof.
  eexists _, _, _. split; [vm_compute; reflexivity|].
  split; [reflexivity|].
  intros Hle. vm_compute in Hle. by apply Hle.
Qed.

(** C5 (amended). On rewards [1,1,1], values [0,0,0], dones [0,0,1],
    gamma 0.99, lambda 0.95 and bootstrap value 0, [compute_gae] yields
    A_2 = 1, A_1 = 1 + 0.99*0.95*1 = 1.9405 and
    A_0 = 1 + 0.99*0.95*A_1 = 2.82504025, and the returns equal the
    advantages. *)
Theorem gae_concrete_scenario :
  exists a0 a1 a2,
    compute_gae (99 # 100)%Q (95 # 100)%Q [1; 1; 1]%Q [0; 0; 0]%Q [0; 0; 1]%Q 0%Q
      = Some ([a0; a1; a2], [a0; a1; a2]) /\
    (a2 == 1)%Q /\
    (a1 == 1 + (99 # 100) * (95 # 100) * 1)%Q /\
    (a1 == 19405 # 10000)%Q /\
    (a0 == 1 + (99 # 100) * (95 # 100) * a1)%Q /\
    (a0 == 282504025 # 100000000)%Q.
Proof.
  eexists _, _, _. split; [vm_compute; reflexivity|].
  repeat split; reflexivity.
Qed.

(** *** Lambda zero *)

(** With [gae_lambda = 0] the carry of the recursion vanishes. *)
Lemma gae_step_lambda_zero (gamma delta d last_gae : Q) :
  (gae_step gamma 0%Q delta d last_gae == delta)%Q.
Proof. unfold gae_step. cbn. ring. Qed.

(** C6. With [gae_lambda = 0], on tensors of one length H, the advantage
    that [compute_gae] returns at every index [t < H] is the one-step
    temporal-difference error
    [reward[t] + gamma * next_value * (1 - done[t]) - value[t]], where
    [next_value] is the bootstrap value at [t = H - 1] and [value[t + 1]]
    before. *)
Theorem compute_gae_lambda_zero_td
    (gamma : Q) (rewards values dones : list Q) (next_value : Q) :
  length values = length rewards ->
  length dones = length rewards ->
  exists advantages returns,
    compute_gae gamma 0%Q rewards values dones next_value
      = Some (advantages, returns) /\
    forall t, t < length rewards ->
      exists a r nv d v,
        advantages !! t = Some a /\
        rewards !! t = Some r /\ dones !! t = Some d /\ values !! t = Some v /\
        (if decide (t = length rewards - 1) then nv = next_value
         else values !! (t + 1) = Some nv) /\
        (a == r + gamma * nv * (1 - d) - v)%Q.
Proof.
  intros Hv Hd.
  destruct (compute_gae_recursion gamma 0%Q rewards values dones
              next_value Hv Hd) as (adv & ret & Hrun & Hlen & _ & Hrec).
  exists adv, ret. split; [done|].
  intros t Ht.
  destruct (Hrec t Ht) as (nv & r & d & v & Hnv & Hr & Hd' & Hv' & Ha).
  eexists _, r, nv, d, v. split; [exact Ha|].
  split; [done|]. split; [done|]. split; [done|]. split.
  - unfold next_value_at in Hnv. case_decide; congruence.
  - rewrite gae_step_lambda_zero. unfold gae_delta. cbn. reflexivity.
Qed.

Lemma compute_gae_lambda_zero_td_witness :
  exists advantages returns,
    compute_gae (99 # 100)%Q 0%Q [1; 2; 3]%Q [4; 5; 6]%Q [0; 1; 0]%Q 7%Q
      = Some (advantages, returns) /\
    forall t, t < 3 ->
      exists a r nv d v,
        advantages !! t = Some a /\
        [1; 2; 3]%Q !! t = Some r /\ [0; 1; 0]%Q !! t = Some d /\
        [4; 5; 6]%Q !! t = Some v /\
        (if decide (t = 3 - 1) then nv = 7%Q
         else [4; 5; 6]%Q !! (t + 1) = Some nv) /\
        (a == r + (99 # 100) * nv * (1 - d) - v)%Q.
Proof.
  apply (compute_gae_lambda_zero_td (99 # 100)%Q
           [1; 2; 3]%Q [4; 5; 6]%Q [0; 1; 0]%Q 7%Q); reflexivity.
Defined.

(** ** Action-space dispatch *)

(** Against C9 as stated: a box whose shape tuple is empty is one of the
    three named classes and still makes the constructor fail, on
    [shape[0]]. *)
Lemma init_action_space_scalar_box_fatal :
  named_space_class (Box []) = true /\
  init_action_space (Box []) = inl IndexError.
Proof. split; reflexivity. Qed.

(** C9 (amended). A single [Discrete] space of size [n] is accepted and laid
    out as a factored discrete space with the one dimension [n], exactly as
    [MultiDiscrete [n]] is, with an actor output of width [n]; a
    [MultiDiscrete] space and a box with at least one axis are accepted; and
    the constructor raises its unsupported-action-space error exactly for the
    spaces of any other class. *)
Theorem init_action_space_dispatch :
  (forall n,
     init_action_space (Discrete n)
       = inr {| n_logits := Some [n]; action_dim := 1; discrete := true |} /\
     init_action_space (Discrete n) = init_action_space (MultiDiscrete [n]) /\
     actor_out_features
       {| n_logits := Some [n]; action_dim := 1; discrete := true |} = n) /\
  (forall nvec,
     init_action_space (MultiDiscrete nvec)
       = inr {| n_logits := Some nvec; action_dim := length nvec;
                discrete := true |}) /\
  (forall d shape,
     init_action_space (Box (d :: shape))
       = inr {| n_logits := None; action_dim := d; discrete := false |}) /\
  (forall space,
     (exists s, init_action_space space = inl (NotImplementedError s))
     <-> named_space_class space = false).
Proof.
  split.
  { intros n. repeat split. cbn. lia. }
  split; [done|]. split; [done|].
  intros space. split.
  - intros [s Hs]. destruct space as [nvec|n|[|d shape]|name]; cbn in *; congruence.
  - destruct space as [nvec|n|shape|name]; cbn; try discriminate.
    intros _. by eexists.
Qed.

(** ** Early stopping in [train_step] *)

Lemma Qgt_bool_true (a b : Q) : Qgt_bool a b = true <-> (b < a)%Q.
Proof.
  unfold Qgt_bool. rewrite negb_true_iff, <- not_true_iff_false, Qle_bool_iff.
  split; [apply Qnot_le_lt | apply Qlt_not_le].
Qed.

Lemma Qgt_bool_false (a b : Q) : Qgt_bool a b = false <-> (a <= b)%Q.
Proof.
  unfold Qgt_bool. rewrite negb_false_iff. apply Qle_bool_iff.
Qed.

Section TrainStep_facts.
Context {Params : Type}.
Variable target_kl : Q.
Variable compute_ppo_loss : Params -> Q * Q * Q.
Variable optimizer_step : Params -> Params.
Variable theta : Params.

Lemma epoch_start_S j :
  epoch_start compute_ppo_loss optimizer_step theta (S j) =
  {| params := optimizer_step (params_after optimizer_step theta j);
     total_losses :=
       total_losses (epoch_start compute_ppo_loss optimizer_step theta j)
       ++ [total_loss_at compute_ppo_loss optimizer_step theta j];
     value_losses :=
       value_losses (epoch_start compute_ppo_loss optimizer_step theta j)
       ++ [value_loss_at compute_ppo_loss optimizer_step theta j];
     kl_divs :=
       kl_divs (epoch_start compute_ppo_loss optimizer_step theta j)
       ++ [kl_at compute_ppo_loss optimizer_step theta j];
     n_steps := S j |}.
Proof. unfold epoch_start. rewrite seq_S, !map_app. reflexivity. Qed.

Lemma epoch_loop_body epochs j :
  epoch_loop target_kl compute_ppo_loss optimizer_step (S epochs)
    (epoch_start compute_ppo_loss optimizer_step theta j) =
  if Qgt_bool (kl_at compute_ppo_loss optimizer_step theta j) ((3 # 2) * target_kl)%Q
  then epoch_stop compute_ppo_loss optimizer_step theta j
  else epoch_loop target_kl compute_ppo_loss optimizer_step epochs
         (epoch_start compute_ppo_loss optimizer_step theta (S j)).
Proof.
  assert (Hloss : compute_ppo_loss (params_after optimizer_step theta j) =
                  (total_loss_at compute_ppo_loss optimizer_step theta j,
                   value_loss_at compute_ppo_loss optimizer_step theta j,
                   kl_at compute_ppo_loss optimizer_step theta j)).
  { unfold kl_at, total_loss_at, value_loss_at.
    by destruct (compute_ppo_loss (params_after optimizer_step theta j))
      as [[tl vl] k]. }
  rewrite epoch_start_S. cbn [epoch_loop].
  cbn [params epoch_start total_losses value_losses kl_divs n_steps].
  rewrite Hloss. unfold epoch_stop. rewrite seq_S, !map_app. reflexivity.
Qed.

Lemma epoch_loop_stops_at epochs j k :
  j <= k -> k < j + epochs ->
  (forall i, j <= i < k -> (kl_at compute_ppo_loss optimizer_step theta i <= (3 # 2) * target_kl)%Q) ->
  ((3 # 2) * target_kl < kl_at compute_ppo_loss optimizer_step theta k)%Q ->
  epoch_loop target_kl compute_ppo_loss optimizer_step epochs
    (epoch_start compute_ppo_loss optimizer_step theta j)
    = epoch_stop compute_ppo_loss optimizer_step theta k.
Proof.
  revert j. induction epochs as [|epochs IH]; intros j Hjk Hk Hbelow Habove.
  - lia.
  - rewrite epoch_loop_body.
    destruct (decide (j = k)) as [->|Hne].
    + apply Qgt_bool_true in Habove. by rewrite Habove.
    + assert (Hj : (kl_at compute_ppo_loss optimizer_step theta j <= (3 # 2) * target_kl)%Q) by (apply Hbelow; lia).
      apply Qgt_bool_false in Hj. rewrite Hj.
      apply IH; [lia|lia| |done].
      intros i Hi. apply Hbelow. lia.
Qed.
End TrainStep_facts.

(** C2. If epoch [k] (counted from 0, [k < 10]) is the first whose KL
    exceeds [1.5 * target_kl], the loop of [train_step] stops in that epoch
    before its gradient step: exactly [k] gradient steps have been applied
    (one, when the second epoch triggers), the parameters are those after
    [k] steps, no later epoch is logged, and the returned numbers are the
    means over the [k + 1] epochs whose loss was computed. *)
Theorem train_step_early_stop {Params : Type} (target_kl : Q)
    (compute_ppo_loss : Params -> Q * Q * Q)
    (optimizer_step : Params -> Params) (theta : Params) (k : nat) :
  k < 10 ->
  (forall i, i < k ->
     (kl_at compute_ppo_loss optimizer_step theta i <= (3 # 2) * target_kl)%Q) ->
  ((3 # 2) * target_kl < kl_at compute_ppo_loss optimizer_step theta k)%Q ->
  n_steps (train_step_state target_kl compute_ppo_loss optimizer_step theta) = k /\
  length (kl_divs (train_step_state target_kl compute_ppo_loss optimizer_step theta))
    = S k /\
  train_step target_kl compute_ppo_loss optimizer_step theta =
    (Nat.iter k optimizer_step theta,
     {| total_loss :=
          np_mean (map (total_loss_at compute_ppo_loss optimizer_step theta)
                       (seq 0 (S k)));
        value_loss :=
          np_mean (map (value_loss_at compute_ppo_loss optimizer_step theta)
                       (seq 0 (S k)));
        kl_div :=
          np_mean (map (kl_at compute_ppo_loss optimizer_step theta)
                       (seq 0 (S k))) |}).
Proof.
  intros Hk Hbelow Habove.
  assert (Hrun : train_step_state target_kl compute_ppo_loss optimizer_step theta
                 = epoch_stop compute_ppo_loss optimizer_step theta k).
  { apply (epoch_loop_stops_at target_kl compute_ppo_loss optimizer_step theta
             10 0 k); [lia|lia| |done].
    intros i Hi. apply Hbelow. lia. }
  unfold train_step. rewrite Hrun. cbn [epoch_stop n_steps kl_divs params
    total_losses value_losses].
  split; [done|]. split; [|done].
  by rewrite length_map, length_seq.
Qed.

(** A batch on which the KL is 0 at the initial parameters and 1 after one
    step, with [target_kl = 0.01]: the second epoch triggers. *)
Lemma train_step_early_stop_witness :
  n_steps (train_step_state (1 # 100) counting_loss S 0) = 1 /\
  length (kl_divs (train_step_state (1 # 100) counting_loss S 0)) = 2 /\
  train_step (1 # 100) counting_loss S 0 =
    (1,
     {| total_loss := np_mean (map (total_loss_at counting_loss S 0) (seq 0 2));
        value_loss := np_mean (map (value_loss_at counting_loss S 0) (seq 0 2));
        kl_div := np_mean (map (kl_at counting_loss S 0) (seq 0 2)) |}).
Proof.
  apply (train_step_early_stop (1 # 100) counting_loss S 0 1).
  - lia.
  - intros i Hi. assert (i = 0) as -> by lia. vm_compute. discriminate.
  - vm_compute. reflexivity.
Defined.

(** ** Rollout collection *)

Section Rollout_facts.
Context {T : Type} {arith : TensorArith T}.
Context {Obs Act EnvState Rng : Type}.
Variable env_reset : EnvState -> Obs * EnvState.
Variable env_step : EnvState -> Act -> @StepResult T Obs * EnvState.
Variable policy_sample : Rng -> Obs -> Act * T * Rng.
Variable critic : Obs -> T.

Lemma rollout_init_collected (e : EnvState) (g : Rng) :
  exists obs0,
    collected (Act := Act) critic 0 (rollout_init env_reset e g) obs0 [].
Proof.
  unfold rollout_init. destruct (env_reset e) as [obs e0].
  exists obs. by repeat split.
Qed.

(** One pass extends the trace by one pass and every buffer by one entry. *)
Lemma rollout_step_collected k (c : @Collector T Obs Act EnvState Rng)
    obs0 passes :
  collected critic k c obs0 passes ->
  exists p,
    collected critic (S k)
      (rollout_step env_reset env_step policy_sample critic c)
      obs0 (passes ++ [p]).
Proof.
  intros (Hcalls & Hlen & Hends & Hstates & Hact & Hrew & Hval & Hlp & Hdone).
  unfold rollout_step.
  destruct (policy_sample (rng c) (state c)) as [[action log_prob] rng'].
  destruct (env_step (env c) action) as [res env'].
  destruct (terminated res || truncated res) eqn:Hend.
  - destruct (env_reset env') as [obs env''].
    exists {| pass_action := action; pass_result := res; pass_reset := Some obs |}.
    unfold collected. cbn.
    rewrite flat_map_app, !map_app, !length_app, Forall_app, Forall_singleton.
    cbn. rewrite Hcalls, Hlen, Hact, Hrew, Hlp, Hdone, Hstates, Hval.
    split; [by rewrite <- ?app_assoc|]. split; [lia|]. split.
    { split; [done|]. unfold pass_resets_on_end. cbn. rewrite Hend.
      split; [done|by eexists]. }
    repeat split; try done; lia.
  - exists {| pass_action := action; pass_result := res; pass_reset := None |}.
    unfold collected. cbn.
    rewrite flat_map_app, !map_app, !length_app, Forall_app, Forall_singleton.
    cbn. rewrite Hcalls, Hlen, Hact, Hrew, Hlp, Hdone, Hstates, Hval.
    split; [by rewrite <- ?app_assoc|]. split; [lia|]. split.
    { split; [done|]. unfold pass_resets_on_end. cbn. rewrite Hend.
      split; [|done]. intros [x Hx]. discriminate. }
    repeat split; try done; lia.
Qed.

Lemma rollout_iter_collected max_steps e g :
  exists obs0 passes,
    collected critic max_steps
      (Nat.iter max_steps
         (rollout_step env_reset env_step policy_sample critic)
         (rollout_init env_reset e g))
      obs0 passes.
Proof.
  induction max_steps as [|n (obs0 & passes & IH)].
  - destruct (rollout_init_collected e g) as [obs0 H0]. by exists obs0, [].
  - cbn [Nat.iter].
    destruct (rollout_step_collected _ _ _ _ IH) as [p Hp].
    by exists obs0, (passes ++ [p]).
Qed.

(** The buffers of a collected trace all have its length. *)
Lemma collected_lengths k (c : @Collector T Obs Act EnvState Rng) obs0 passes :
  collected critic k c obs0 passes ->
  length (states c) = k /\ length (actions c) = k /\
  length (rewards c) = k /\ length (values c) = k /\
  length (log_probs c) = k /\ length (dones c) = k.
Proof.
  intros (Hcalls & Hlen & Hends & Hstates & Hact & Hrew & Hval & Hlp & Hdone).
  assert (Hs : length (states c) = k).
  { apply (f_equal length) in Hstates.
    rewrite length_app in Hstates. cbn in Hstates.
    rewrite length_map in Hstates. lia. }
  rewrite Hval, Hact, Hrew, Hdone, !length_map. by repeat split.
Qed.

(** Runs of the environment and of the policy compose. *)
Lemma env_run_app e log1 e1 log2 e2 :
  env_run (Act := Act) env_reset env_step e log1 e1 ->
  env_run env_reset env_step e1 log2 e2 ->
  env_run env_reset env_step e (log1 ++ log2) e2.
Proof.
  revert e. induction log1 as [|[obs|action res] log1 IH]; intros e; cbn.
  - by intros ->.
  - intros [Hobs Hrun] H2. split; [done|]. by apply IH.
  - intros [Hres Hrun] H2. split; [done|]. by apply IH.
Qed.

Lemma policy_run_snoc g obs acts lps g1 o :
  policy_run policy_sample g obs acts lps g1 ->
  policy_run policy_sample g (obs ++ [o])
    (acts ++ [(policy_sample g1 o).1.1]) (lps ++ [(policy_sample g1 o).1.2])
    (policy_sample g1 o).2.
Proof.
  revert g acts lps.
  induction obs as [|o1 obs IH]; intros g [|a acts] [|lp lps]; cbn; try done.
  - intros ->. split; [|done]. by destruct (policy_sample g o) as [[? ?] ?].
  - intros [Hs Hrun]. split; [done|]. by apply IH.
Qed.

Lemma rollout_init_runs e g :
  runs_of (Act := Act) env_reset env_step policy_sample e g
    (rollout_init env_reset e g).
Proof.
  unfold runs_of, rollout_init. destruct (env_reset e) as [obs e0] eqn:He.
  cbn. by rewrite He.
Qed.

Lemma rollout_step_runs e g (c : @Collector T Obs Act EnvState Rng) :
  runs_of env_reset env_step policy_sample e g c ->
  runs_of env_reset env_step policy_sample e g
    (rollout_step env_reset env_step policy_sample critic c).
Proof.
  intros [Henv Hpol]. unfold runs_of, rollout_step.
  pose proof (policy_run_snoc _ _ _ _ _ (state c) Hpol) as Hpol'.
  destruct (policy_sample (rng c) (state c)) as [[action log_prob] rng'].
  destruct (env_step (env c) action) as [res env'] eqn:Hstep.
  destruct (terminated res || truncated res).
  - destruct (env_reset env') as [obs env''] eqn:Hreset.
    cbn [env calls rng states actions log_probs]. split; [|done].
    rewrite <- app_assoc. eapply env_run_app; [exact Henv|].
    cbn. rewrite Hstep. cbn. by rewrite Hreset.
  - cbn [env calls rng states actions log_probs]. split; [|done].
    eapply env_run_app; [exact Henv|]. cbn. by rewrite Hstep.
Qed.

Lemma rollout_iter_runs max_steps e g :
  runs_of env_reset env_step policy_sample e g
    (Nat.iter max_steps (rollout_step env_reset env_step policy_sample critic)
       (rollout_init env_reset e g)).
Proof.
  induction max_steps as [|n IH]; [apply rollout_init_runs|].
  cbn [Nat.iter]. by apply rollout_step_runs.
Qed.
End Rollout_facts.

Lemma lookup_map {A B} (f : A -> B) (l : list A) (i : nat) :
  map f l !! i = option_map f (l !! i).
Proof.
  revert i. induction l as [|x l IH]; intros [|i]; cbn; auto.
Qed.

(** The steps among the calls of a trace are the steps of its passes. *)
Lemma step_results_passes {T Obs Act : Type} (obs0 : Obs)
    (passes : list (@Pass T Obs Act)) :
  step_results (CallReset obs0 :: flat_map pass_calls passes)
    = map pass_result passes.
Proof.
  unfold step_results. cbn.
  induction passes as [|p passes IH]; [done|].
  cbn. destruct (pass_reset p); cbn; by rewrite IH.
Qed.


(** C4. For every horizon H, environment and generator, [collect_rollout]
    returns six buffers of exactly H entries each and one bootstrap value,
    the critic at the last held observation.  The calls it made are a run of
    the environment itself, from the state it was entered with to the state
    it leaves behind: one reset at the start and then H steps, each answered
    by [env.step] in the state the environment was then in, and each
    followed by an [env.reset()] exactly when it reported [terminated] or
    [truncated].  The recorded actions and log-probabilities are the ones
    the policy sampled at the recorded states.  Every recorded done flag is
    the [terminated] signal that the environment returned for its step, so a
    step that is truncated and not terminated is recorded with done false;
    the passes after a reset append to the same buffers. *)
Theorem collect_rollout_horizon {T : Type} {arith : TensorArith T}
    {Obs Act EnvState Rng : Type}
    (env_reset : EnvState -> Obs * EnvState)
    (env_step : EnvState -> Act -> @StepResult T Obs * EnvState)
    (policy_sample : Rng -> Obs -> Act * T * Rng)
    (critic : Obs -> T)
    (max_steps : nat) (e : EnvState) (g : Rng) :
  let ro := collect_rollout env_reset env_step policy_sample critic
              max_steps e g in
  (length (states ro.1) = max_steps /\ length (actions ro.1) = max_steps /\
   length (rewards ro.1) = max_steps /\ length (values ro.1) = max_steps /\
   length (log_probs ro.1) = max_steps /\ length (dones ro.1) = max_steps) /\
  ro.2 = critic (state ro.1) /\
  exists obs0 passes,
    collected critic max_steps ro.1 obs0 passes /\
    env_run env_reset env_step e (calls ro.1) (env ro.1) /\
    policy_run policy_sample g (states ro.1) (actions ro.1) (log_probs ro.1)
      (rng ro.1) /\
    length (step_results (calls ro.1)) = max_steps /\
    dones ro.1 = map terminated (step_results (calls ro.1)) /\
    forall t p,
      passes !! t = Some p ->
      (dones ro.1 !! t = Some (terminated (pass_result p))) /\
      (truncated (pass_result p) = true ->
       terminated (pass_result p) = false ->
       dones ro.1 !! t = Some false /\ is_Some (pass_reset p)).
Proof.
  intros ro.
  destruct (rollout_iter_collected env_reset env_step policy_sample critic
              max_steps e g) as (obs0 & passes & Hc).
  change (collected critic max_steps ro.1 obs0 passes) in Hc.
  destruct (rollout_iter_runs env_reset env_step policy_sample critic
              max_steps e g) as [Henv Hpol].
  split; [by apply (collected_lengths critic _ _ _ _ Hc)|].
  split; [done|].
  exists obs0, passes. split; [done|].
  split; [exact Henv|]. split; [exact Hpol|].
  destruct Hc as (Hcalls & Hlen & Hends & _ & _ & _ & _ & _ & Hdone).
  rewrite Hcalls, step_results_passes, length_map, Hdone, map_map.
  split; [done|]. split; [done|].
  intros t p Hp.
  assert (Hd : map (fun p => terminated (pass_result p)) passes !! t
               = Some (terminated (pass_result p))).
  { by rewrite lookup_map, Hp. }
  split; [done|].
  intros Htrunc Hterm. split; [by rewrite Hd, Hterm|].
  apply (Forall_lookup_1 _ _ _ _ Hends Hp).
  by rewrite Htrunc, orb_true_r.
Qed.

(** ** Bootstrap value after a truncated last step *)

Lemma last_map {A B} (f : A -> B) (l : list A) :
  last (map f l) = option_map f (last l).
Proof.
  induction l as [|x l IH] using rev_ind; [done|].
  rewrite map_app. cbn [map]. by rewrite !last_snoc.
Qed.

Lemma last_lookup_length {A} (l : list A) (n : nat) :
  length l = S n -> l !! n = last l.
Proof. intros Hl. rewrite last_lookup, Hl. done. Qed.

(** C10. Let the last of the [H >= 1] steps of a rollout, the step that
    [env.step] answers for the action sampled after [H - 1] passes, report
    [truncated] and not [terminated].  Then [collect_rollout] calls
    [env.reset()] once more on the environment as that step left it; this
    reset is its last call on the environment, and the bootstrap value it
    returns is the critic at the observation that this reset returned, not
    at the [next_state] of the step.  All its calls are a run of the
    environment itself.  The done flag of the step is recorded false, so
    that in [compute_gae] the advantage at index [H - 1] is
    [reward + gamma * bootstrap - value], the bootstrap term multiplied by
    [1 - 0], with the step's reward and the critic's value at the state the
    step was taken in. *)
Theorem truncated_last_step_bootstrap {Obs Act EnvState Rng : Type}
    (env_reset : EnvState -> Obs * EnvState)
    (env_step : EnvState -> Act -> @StepResult Q Obs * EnvState)
    (policy_sample : Rng -> Obs -> Act * Q * Rng)
    (critic : Obs -> Q)
    (gamma gae_lambda : Q)
    (n : nat) (e : EnvState) (g : Rng) :
  let before := (collect_rollout env_reset env_step policy_sample critic
                   n e g).1 in
  let action := (policy_sample (rng before) (state before)).1.1 in
  let res := (env_step (env before) action).1 in
  let obs := (env_reset (env_step (env before) action).2).1 in
  let ro := collect_rollout env_reset env_step policy_sample critic
              (S n) e g in
  truncated res = true ->
  terminated res = false ->
  last (calls ro.1) = Some (CallReset obs) /\
  last (step_results (calls ro.1)) = Some res /\
  env_run env_reset env_step e (calls ro.1) (env ro.1) /\
  env ro.1 = (env_reset (env_step (env before) action).2).2 /\
  state ro.1 = obs /\
  ro.2 = critic obs /\
  dones ro.1 !! n = Some false /\
  exists advantages returns a,
    rollout_gae gamma gae_lambda ro = Some (advantages, returns) /\
    length advantages = S n /\
    values ro.1 !! n = Some (critic (state before)) /\
    advantages !! n = Some a /\
    (a == reward res + gamma * critic obs - critic (state before))%Q.
Proof.
  intros before action res obs ro Htrunc Hterm.
  destruct (rollout_iter_collected env_reset env_step policy_sample critic
              n e g) as (obs0 & passes & Hc).
  change (collected critic n before obs0 passes) in Hc.
  pose proof (collected_lengths critic _ _ _ _ Hc)
    as (Hls & Hla & Hlr & Hlv & Hlp & Hld).
  destruct (rollout_iter_runs env_reset env_step policy_sample critic
              (S n) e g) as [Henv _].
  change (env_run env_reset env_step e (calls ro.1) (env ro.1)) in Henv.
  (* the last pass, unfolded *)
  assert (Hro : ro.1 = rollout_step env_reset env_step policy_sample critic
                         before) by done.
  assert (Hfv : ro.2 = critic (state ro.1)) by done.
  unfold rollout_step in Hro. fold action in Hro.
  destruct (policy_sample (rng before) (state before))
    as [[action' log_prob] rng'] eqn:Hsample.
  cbn [fst snd] in action. subst action.
  destruct (env_step (env before) action') as [res' env'] eqn:Hstep.
  cbn [fst snd] in res, obs. subst res.
  rewrite Hterm, Htrunc in Hro. cbn [orb] in Hro.
  destruct (env_reset env') as [obs' env''] eqn:Hreset.
  cbn [fst snd] in obs. subst obs. cbn [snd].
  rewrite Hro in Hfv. cbn [state] in Hfv. rewrite Hfv.
  revert Henv. rewrite Hro.
  cbn [calls env state dones values rewards]. intros Henv.
  split; [by rewrite last_snoc|].
  split.
  { unfold step_results. rewrite !omap_app. cbn [omap list_omap app].
    by rewrite app_nil_r, last_snoc. }
  split; [done|]. split; [by rewrite Hreset|].
  split; [done|]. split; [done|].
  assert (Hdn : (dones before ++ [false]) !! n = Some false).
  { rewrite lookup_app_r by lia. by rewrite Hld, Nat.sub_diag. }
  split; [done|].
  unfold rollout_gae. rewrite Hro, Hfv.
  cbn [fst snd rewards values dones].
  destruct (compute_gae_recursion gamma gae_lambda
              (rewards before ++ [reward res'])
              (values before ++ [critic (state before)])
              (map float_of_bool (dones before ++ [false])) (critic obs'))
    as (adv & ret & Hrun & Hladv & _ & Hrec).
  { rewrite !length_app. cbn [length]. lia. }
  { rewrite length_map, !length_app. cbn [length]. lia. }
  rewrite length_app in Hladv. cbn [length] in Hladv.
  destruct (Hrec n) as (nv & r & d & v & Hnv & Hr & Hd & Hv & Ha).
  { rewrite length_app. cbn [length]. lia. }
  exists adv, ret. eexists.
  split; [done|]. split; [lia|].
  assert (Hvn : (values before ++ [critic (state before)]) !! n
                = Some (critic (state before))).
  { rewrite lookup_app_r by lia. by rewrite Hlv, Nat.sub_diag. }
  split; [done|]. split; [exact Ha|].
  rewrite Hvn in Hv. injection Hv as <-.
  unfold next_value_at in Hnv. rewrite length_app in Hnv. cbn [length] in Hnv.
  rewrite decide_True in Hnv by lia. injection Hnv as <-.
  rewrite lookup_map, Hdn in Hd. injection Hd as <-.
  rewrite lookup_app_r in Hr by lia. rewrite Hlr, Nat.sub_diag in Hr.
  injection Hr as <-.
  rewrite lookup_ge_None_2 by lia.
  unfold gae_step, gae_delta, float_of_bool.
  cbn [default tadd tsub tmul tone tzero Q_arith]. ring.
Qed.

Lemma truncated_last_step_bootstrap_witness :
  last (calls timelimit_rollout.1) = Some (CallReset 0) /\
  last (step_results (calls timelimit_rollout.1))
    = Some {| next_state := 2; reward := 1%Q; terminated := false;
              truncated := true |} /\
  env_run timelimit_reset timelimit_step 0 (calls timelimit_rollout.1)
    (env timelimit_rollout.1) /\
  env timelimit_rollout.1 = 0 /\
  state timelimit_rollout.1 = 0 /\
  timelimit_rollout.2 = counting_critic 0 /\
  dones timelimit_rollout.1 !! 1 = Some false /\
  exists advantages returns a,
    rollout_gae (99 # 100)%Q (95 # 100)%Q timelimit_rollout
      = Some (advantages, returns) /\
    length advantages = 2 /\
    values timelimit_rollout.1 !! 1 = Some (counting_critic 1) /\
    advantages !! 1 = Some a /\
    (a == 1 + (99 # 100) * counting_critic 0 - counting_critic 1)%Q.
Proof.
  apply (truncated_last_step_bootstrap timelimit_reset timelimit_step
           unit_policy counting_critic (99 # 100)%Q (95 # 100)%Q 1 0 tt);
    reflexivity.
Defined.

(** ** Checkpoint loading *)

Section LoadModel_facts.
Context {Path StateDict : Type}.
Variable cwd : Path.
Variable path_div : Path -> string -> Path.
Variable path_str : Path -> string.
Variable path_exists : Path -> bool.
Variable torch_load : Path -> option (gmap string StateDict).
Variable load_state_dict : StateDict -> StateDict -> LoadResult StateDict.

(** A successful [getitem] found the key and left the trainer alone. *)
Lemma getitem_inr checkpoint key (tr tr' : @Trainer StateDict) sd :
  getitem checkpoint key tr = (tr', inr sd) ->
  tr' = tr /\ checkpoint !! key = Some sd.
Proof.
  unfold getitem, load_ret, load_raise.
  destruct (checkpoint !! key); intros [=]; by subst.
Qed.

(** A successful [load_into] wrote the result of [load_state_dict]. *)
Lemma load_into_inr get set sd (tr tr' : @Trainer StateDict) u :
  load_into load_state_dict get set sd tr = (tr', inr u) ->
  exists new, load_state_dict (get tr) sd = Loaded new /\ tr' = set new tr.
Proof.
  unfold load_into.
  destruct (load_state_dict (get tr) sd) as [new|partial]; intros [=]; subst.
  by exists new.
Qed.

Lemma load_bind_inr {A B} (m : Loader A) (k : A -> Loader B)
    (tr tr' : @Trainer StateDict) b :
  load_bind m k tr = (tr', inr b) ->
  exists tr1 a, m tr = (tr1, inr a) /\ k a tr1 = (tr', inr b).
Proof.
  unfold load_bind. destruct (m tr) as [tr1 [e|a]]; [intros [=]|].
  intros Hk. by exists tr1, a.
Qed.

Lemma load_bind_getitem {B} checkpoint key sd (k : StateDict -> Loader B)
    (tr : @Trainer StateDict) :
  checkpoint !! key = Some sd ->
  load_bind (getitem checkpoint key) k tr = k sd tr.
Proof. intros Hk. unfold load_bind, getitem. by rewrite Hk. Qed.

Lemma load_bind_load_into {B} get set sd new (k : unit -> Loader B)
    (tr : @Trainer StateDict) :
  load_state_dict (get tr) sd = Loaded new ->
  load_bind (load_into load_state_dict get set sd) k tr = k tt (set new tr).
Proof. intros Hl. unfold load_bind, load_into. by rewrite Hl. Qed.
End LoadModel_facts.

(** C8. When the checkpoint file does not exist, [load_model] raises a
    [ValueError] whose message prints the very path it looked for, and the
    actor, the critic and both optimizers are as before.  When [load_model]
    succeeds, the file exists and holds all four named fields, each loaded
    into its object; and when the file exists and holds four fields that
    load, [load_model] succeeds and has written all four. *)
Theorem load_model_missing_or_complete {Path StateDict : Type}
    (cwd : Path) (path_div : Path -> string -> Path)
    (path_str : Path -> string) (path_exists : Path -> bool)
    (torch_load : Path -> option (gmap string StateDict))
    (load_state_dict : StateDict -> StateDict -> LoadResult StateDict)
    (tr : @Trainer StateDict) (filename : string) :
  let path := path_div (path_div cwd "checkpoints") filename in
  let run := load_model cwd path_div path_str path_exists torch_load
               load_state_dict filename tr in
  (path_exists path = false ->
   run = (tr, inl (ValueError
                     ("Checkpoint " ++ path_str path ++ " doesn't exist!")))) /\
  (forall tr',
     run = (tr', inr tt) ->
     path_exists path = true /\
     exists checkpoint a c ao co,
       torch_load path = Some checkpoint /\
       checkpoint !! "actor_state_dict" = Some a /\
       checkpoint !! "critic_state_dict" = Some c /\
       checkpoint !! "actor_optimizer_state_dict" = Some ao /\
       checkpoint !! "critic_optimizer_state_dict" = Some co /\
       load_state_dict (actor tr) a = Loaded (actor tr') /\
       load_state_dict (critic tr) c = Loaded (critic tr') /\
       load_state_dict (actor_optimizer tr) ao = Loaded (actor_optimizer tr') /\
       load_state_dict (critic_optimizer tr) co
         = Loaded (critic_optimizer tr')) /\
  (forall checkpoint a c ao co a' c' ao' co',
     path_exists path = true ->
     torch_load path = Some checkpoint ->
     checkpoint !! "actor_state_dict" = Some a ->
     checkpoint !! "critic_state_dict" = Some c ->
     checkpoint !! "actor_optimizer_state_dict" = Some ao ->
     checkpoint !! "critic_optimizer_state_dict" = Some co ->
     load_state_dict (actor tr) a = Loaded a' ->
     load_state_dict (critic tr) c = Loaded c' ->
     load_state_dict (actor_optimizer tr) ao = Loaded ao' ->
     load_state_dict (critic_optimizer tr) co = Loaded co' ->
     run = ({| actor := a'; critic := c'; actor_optimizer := ao';
               critic_optimizer := co' |}, inr tt)).
Proof.
  intros path run. subst run. unfold load_model, checkpoint_path.
  fold path. split; [|split].
  - intros Hex. by rewrite Hex.
  - intros tr' Hrun. destruct (path_exists path); [|discriminate].
    split; [done|]. cbn [negb] in Hrun.
    destruct (torch_load path) as [checkpoint|]; [|discriminate].
    apply load_bind_inr in Hrun as (t1 & a & [-> Ha]%getitem_inr & Hrun).
    apply load_bind_inr in Hrun as (t2 & u1 & Hla & Hrun).
    apply load_into_inr in Hla as (a' & Hla & ->).
    apply load_bind_inr in Hrun as (t3 & c & [-> Hc]%getitem_inr & Hrun).
    apply load_bind_inr in Hrun as (t4 & u2 & Hlc & Hrun).
    apply load_into_inr in Hlc as (c' & Hlc & ->).
    apply load_bind_inr in Hrun as (t5 & ao & [-> Hao]%getitem_inr & Hrun).
    apply load_bind_inr in Hrun as (t6 & u3 & Hlao & Hrun).
    apply load_into_inr in Hlao as (ao' & Hlao & ->).
    apply load_bind_inr in Hrun as (t7 & co & [-> Hco]%getitem_inr & Hrun).
    apply load_into_inr in Hrun as (co' & Hlco & ->).
    exists checkpoint, a, c, ao, co. cbn in *. by repeat split.
  - intros checkpoint a c ao co a' c' ao' co' Hex Hload Ha Hc Hao Hco
      Hla Hlc Hlao Hlco.
    rewrite Hex, Hload. cbn [negb].
    rewrite (load_bind_getitem _ _ a) by done.
    rewrite (load_bind_load_into load_state_dict _ _ _ a') by done.
    rewrite (load_bind_getitem _ _ c) by done.
    rewrite (load_bind_load_into load_state_dict _ _ _ c') by done.
    rewrite (load_bind_getitem _ _ ao) by done.
    rewrite (load_bind_load_into load_state_dict _ _ _ ao') by done.
    rewrite (load_bind_getitem _ _ co) by done.
    unfold load_into. cbn. by rewrite Hlco.
Qed.

Lemma load_model_missing_or_complete_witness :
  load_model "/work" string_path_div (fun p => p) one_file_exists
    one_file_load replace_state "absent.pt" fresh_trainer
  = (fresh_trainer,
     inl (ValueError "Checkpoint /work/checkpoints/absent.pt doesn't exist!"))
  /\
  load_model "/work" string_path_div (fun p => p) one_file_exists
    one_file_load replace_state "ppo_latest.pth" fresh_trainer
  = ({| actor := 1; critic := 2; actor_optimizer := 3;
        critic_optimizer := 4 |}, inr tt).
Proof.
  split.
  - apply (load_model_missing_or_complete "/work" string_path_div
             (fun p => p) one_file_exists one_file_load replace_state
             fresh_trainer "absent.pt").
    reflexivity.
  - apply (proj2 (proj2 (load_model_missing_or_complete "/work"
             string_path_div (fun p => p) one_file_exists one_file_load
             replace_state fresh_trainer "ppo_latest.pth"))
             _ 1 2 3 4 1 2 3 4 eq_refl eq_refl);
      reflexivity.
Defined.

(** ** The factored discrete distribution *)

Lemma sum_list_cons (n : nat) (l : list nat) :
  sum_list (n :: l) = n + sum_list l.
Proof. reflexivity. Qed.

(** [torch_split] succeeds exactly on sizes that add up to the length, and
    its chunk [i] is the slice of dimension [i]. *)
Lemma torch_split_dims (nvec : list nat) (logits : list R) :
  sum_list nvec = length logits ->
  torch_split logits nvec
    = Some (map (dim_logits logits nvec) (seq 0 (length nvec))).
Proof.
  revert logits. induction nvec as [|n nvec IH]; intros logits Hsum.
  - destruct logits; [done|]. cbn in Hsum. lia.
  - cbn [torch_split]. rewrite sum_list_cons in Hsum.
    rewrite decide_True by lia.
    rewrite (IH (drop n logits)) by (rewrite length_drop; lia).
    cbn [mbind option_bind length seq map]. f_equal. f_equal.
    rewrite <- seq_shift, map_map.
    apply map_ext. intros i. unfold dim_logits.
    cbn [take lookup list_lookup]. by rewrite sum_list_cons, drop_drop.
Qed.

Lemma torch_split_sum (nvec : list nat) (logits : list R) split :
  torch_split logits nvec = Some split -> sum_list nvec = length logits.
Proof.
  revert logits split. induction nvec as [|n nvec IH]; intros logits split.
  - by destruct logits.
  - cbn [torch_split]. case_decide as Hn; [|done].
    destruct (torch_split (drop n logits) nvec) as [rest|] eqn:Hrest; [|done].
    intros _. apply IH in Hrest. rewrite length_drop in Hrest.
    rewrite sum_list_cons. lia.
Qed.

(** [argmax_from] keeps the first greatest element seen so far. *)
Lemma argmax_from_greatest (rest pre : list R) (best_i : nat) (best : R) :
  pre !! best_i = Some best ->
  (forall j y, pre !! j = Some y -> (y <= best)%R) ->
  (forall j y, j < best_i -> pre !! j = Some y -> (y < best)%R) ->
  exists x,
    (pre ++ rest) !! argmax_from best_i best (length pre) rest = Some x /\
    (forall j y, (pre ++ rest) !! j = Some y -> (y <= x)%R) /\
    (forall j y, j < argmax_from best_i best (length pre) rest ->
                 (pre ++ rest) !! j = Some y -> (y < x)%R).
Proof.
  revert pre best_i best.
  induction rest as [|x rest IH]; intros pre best_i best Hbest Hle Hlt.
  - cbn. rewrite app_nil_r. by exists best.
  - cbn [argmax_from].
    assert (Hlen : length (pre ++ [x]) = S (length pre))
      by (rewrite length_app; cbn; lia).
    replace (pre ++ x :: rest) with ((pre ++ [x]) ++ rest)
      by (by rewrite <- app_assoc).
    rewrite <- Hlen.
    destruct (Rlt_dec best x) as [Hbx|Hbx].
    + apply (IH (pre ++ [x]) (length pre) x).
      * by rewrite lookup_app_r, Nat.sub_diag.
      * intros j y Hj. apply lookup_app_Some in Hj as [Hj|[_ Hj]].
        -- apply Hle in Hj. lra.
        -- destruct (j - length pre); [|done]. injection Hj as <-. lra.
      * intros j y Hjlt Hj. rewrite lookup_app_l in Hj by lia.
        apply Hle in Hj. lra.
    + apply (IH (pre ++ [x]) best_i best).
      * apply lookup_app_l_Some. done.
      * intros j y Hj. apply lookup_app_Some in Hj as [Hj|[_ Hj]].
        -- by apply (Hle j).
        -- destruct (j - length pre); [|done]. injection Hj as <-. lra.
      * intros j y Hjlt Hj.
        apply lookup_lt_Some in Hbest.
        rewrite lookup_app_l in Hj by lia. by apply (Hlt j).
Qed.

(** [argmax] returns the first index of a greatest element. *)
Lemma argmax_greatest (l : list R) (k : nat) :
  argmax l = Some k ->
  exists x,
    l !! k = Some x /\
    (forall j y, l !! j = Some y -> (y <= x)%R) /\
    (forall j y, j < k -> l !! j = Some y -> (y < x)%R).
Proof.
  destruct l as [|x0 rest]; [done|]. cbn [argmax]. intros [= <-].
  apply (argmax_from_greatest rest [x0] 0 x0).
  - done.
  - intros [|j] y Hj; [|done]. injection Hj as <-. lra.
  - intros j y Hj. lia.
Qed.

Lemma argmax_defined (l : list R) : l <> [] -> is_Some (argmax l).
Proof. destruct l; [done|]. intros _. by eexists. Qed.

(** Python's [sum], adding from the left from [0], is the sum. *)
Lemma fold_left_Rplus (l : list R) (acc : R) :
  fold_left Rplus l acc = (acc + tensor_sum l)%R.
Proof.
  revert acc. induction l as [|x l IH]; intros acc; cbn.
  - lra.
  - rewrite IH. unfold tensor_sum. lra.
Qed.

(** The KL divergence of a categorical distribution from itself. *)
Lemma zip_with_self_diff_sum (ps ls : list R) :
  tensor_sum (zip_with Rmult ps (zip_with Rminus ls ls)) = 0%R.
Proof.
  revert ps. induction ls as [|l ls IH]; intros [|p ps]; cbn; try done.
  rewrite IH. lra.
Qed.

Lemma categorical_kl_self (p : Categorical.t) :
  Categorical.kl_divergence p p = Some 0%R.
Proof.
  unfold Categorical.kl_divergence. rewrite decide_True by done.
  by rewrite zip_with_self_diff_sum.
Qed.

(** [mapM] over a mapped list, element by element. *)
Lemma mapM_map_Some {A B C} (f : B -> option C) (g : A -> B)
    (l : list A) (ys : list C) :
  mapM f (map g l) = Some ys <-> Forall2 (fun x y => f (g x) = Some y) l ys.
Proof.
  rewrite mapM_Some. revert ys.
  induction l as [|x l IH]; intros ys; cbn [map]; split; intros Hys.
  - apply Forall2_nil_inv_l in Hys as ->. constructor.
  - apply Forall2_nil_inv_l in Hys as ->. constructor.
  - apply Forall2_cons_inv_l in Hys as (y & ys' & Hy & Hys' & ->).
    constructor; [done|]. by apply IH.
  - apply Forall2_cons_inv_l in Hys as (y & ys' & Hy & Hys' & ->).
    constructor; [done|]. by apply IH.
Qed.

Lemma imap_map_seq {A B} (f : nat -> A -> B) (g : nat -> A) (n : nat) :
  imap f (map g (seq 0 n)) = map (fun i => f i (g i)) (seq 0 n).
Proof.
  revert f g. induction n as [|n IH]; intros f g; [done|].
  cbn [seq map imap]. f_equal.
  rewrite <- seq_shift, !map_map. apply (IH (f ∘ S) (g ∘ S)).
Qed.

Lemma zip_map_same {A B C} (f : A -> B) (g : A -> C) (l : list A) :
  zip (map f l) (map g l) = map (fun x => (f x, g x)) l.
Proof. induction l as [|x l IH]; cbn; [done|]. by rewrite IH. Qed.

Lemma stack_sum_Some (xs : list R) :
  xs <> [] -> stack_sum xs = Some (tensor_sum xs).
Proof. by destruct xs. Qed.

Lemma Forall2_seq_nonempty {A} (P : nat -> A -> Prop) (n : nat) (ys : list A) :
  n <> 0 -> Forall2 P (seq 0 n) ys -> ys <> [].
Proof.
  intros Hn Hys ->. apply Forall2_length in Hys.
  rewrite length_seq in Hys. cbn in Hys. lia.
Qed.

Lemma tensor_sum_zeros {A} (l : list A) :
  tensor_sum (map (fun _ => 0%R) l) = 0%R.
Proof.
  unfold tensor_sum. induction l as [|x l IH]; cbn [map foldr]; [done|].
  rewrite IH. lra.
Qed.

Lemma kl_self_zeros (cats : list Categorical.t) :
  mapM (fun dd : Categorical.t * Categorical.t =>
          Categorical.kl_divergence dd.1 dd.2) (zip cats cats)
  = Some (map (fun _ => 0%R) cats).
Proof.
  induction cats as [|c cats IH]; [done|].
  cbn [zip zip_with map mapM fst snd].
  rewrite categorical_kl_self. cbn [mbind option_bind].
  fold (zip cats cats). by rewrite IH.
Qed.

(** What [MultiCategorical.init] builds on sizes that add up. *)
Lemma multicategorical_init_dims (logits : list R) (nvec : list nat) :
  sum_list nvec = length logits ->
  MultiCategorical.init logits nvec =
    Some {| MultiCategorical.nvec := nvec;
            MultiCategorical.split_logits :=
              map (dim_logits logits nvec) (seq 0 (length nvec));
            MultiCategorical.categoricals :=
              map (fun i => Categorical.init (dim_logits logits nvec i))
                  (seq 0 (length nvec)) |}.
Proof.
  intros Hsum. unfold MultiCategorical.init.
  rewrite torch_split_dims by done. cbn. by rewrite map_map.
Qed.

(** C7. A [MultiCategorical] built from a logits vector and cardinalities
    [nvec] (at least one dimension, the cardinalities adding up to the
    length) has one categorical per dimension, over the slice of that
    dimension.  Its joint log-probability of an action is the sum of the
    per-dimension categorical log-probabilities of the components, its joint
    entropy the sum of the per-dimension entropies, its mode the list of
    the per-dimension arg-max indices (each the index of a greatest logit of
    its dimension); its KL divergence to a distribution of the same shape is
    the sum of the per-dimension categorical KL divergences, and its KL
    divergence to itself is 0. *)
Theorem multicategorical_additivity (logits : list R) (nvec : list nat) :
  nvec <> [] ->
  sum_list nvec = length logits ->
  let cat := fun i => Categorical.init (dim_logits logits nvec i) in
  let dims := seq 0 (length nvec) in
  exists m,
    MultiCategorical.init logits nvec = Some m /\
    MultiCategorical.categoricals m = map cat dims /\
    (forall actions s,
       MultiCategorical.log_prob m actions = Some s <->
       exists log_probs,
         Forall2 (fun i lp => exists a, actions !! i = Some a /\
                                Categorical.log_prob (cat i) a = Some lp)
                 dims log_probs /\
         s = tensor_sum log_probs) /\
    MultiCategorical.entropy m
      = Some (tensor_sum (map (fun i => Categorical.entropy (cat i)) dims)) /\
    (forall modes,
       MultiCategorical.mode m = Some modes <->
       Forall2 (fun i k => argmax (dim_logits logits nvec i) = Some k)
               dims modes) /\
    (forall modes,
       MultiCategorical.mode m = Some modes ->
       Forall2 (fun i k => exists x,
                  dim_logits logits nvec i !! k = Some x /\
                  forall j y, dim_logits logits nvec i !! j = Some y ->
                              (y <= x)%R)
               dims modes) /\
    (forall logits2 m2 s,
       MultiCategorical.init logits2 nvec = Some m2 ->
       (MultiCategorical._kl_multi m m2 = Some s <->
        exists kls,
          Forall2 (fun i kl =>
                     Categorical.kl_divergence (cat i)
                       (Categorical.init (dim_logits logits2 nvec i)) = Some kl)
                  dims kls /\
          s = tensor_sum kls)) /\
    MultiCategorical._kl_multi m m = Some 0%R.
Proof.
  intros Hne Hsum cat dims.
  assert (Hdims : length nvec <> 0) by (by destruct nvec).
  eexists. split; [by apply multicategorical_init_dims|].
  cbn [MultiCategorical.categoricals MultiCategorical.split_logits].
  fold cat dims. split; [done|].
  assert (Hmode : forall modes,
    MultiCategorical.mode
      {| MultiCategorical.nvec := nvec;
         MultiCategorical.split_logits := map (dim_logits logits nvec) dims;
         MultiCategorical.categoricals := map cat dims |} = Some modes <->
    Forall2 (fun i k => argmax (dim_logits logits nvec i) = Some k) dims modes).
  { intros modes. unfold MultiCategorical.mode.
    cbn [MultiCategorical.split_logits]. rewrite bind_Some. split.
    - intros (ms & Hms%mapM_map_Some & Hstack).
      destruct ms; [done|]. by injection Hstack as <-.
    - intros Hms. exists modes. split; [by apply mapM_map_Some|].
      apply Forall2_seq_nonempty in Hms; [|done]. by destruct modes. }
  split.
  { (* log_prob *)
    intros actions s. unfold MultiCategorical.log_prob.
    cbn [MultiCategorical.categoricals].
    unfold dims. rewrite imap_map_seq. fold dims.
    rewrite bind_Some. split.
    - intros (lps & Hlps%mapM_map_Some & Hstack).
      exists lps. split.
      + eapply Forall2_impl; [exact Hlps|]. cbn beta.
        intros i lp (a & Ha & Hlp)%bind_Some. by exists a.
      + rewrite stack_sum_Some in Hstack; [by injection Hstack|].
        by eapply Forall2_seq_nonempty.
    - intros (lps & Hlps & ->). exists lps. split.
      + apply mapM_map_Some. eapply Forall2_impl; [exact Hlps|]. cbn beta.
        intros i lp (a & Ha & Hlp). apply bind_Some. by exists a.
      + apply stack_sum_Some. by eapply Forall2_seq_nonempty. }
  split.
  { (* entropy *)
    unfold MultiCategorical.entropy. cbn [MultiCategorical.categoricals].
    rewrite map_map. apply stack_sum_Some.
    unfold dims. destruct (length nvec); done. }
  split; [exact Hmode|].
  split.
  { (* the mode indexes a greatest logit *)
    intros modes Hm%Hmode. eapply Forall2_impl; [exact Hm|]. cbn beta.
    intros i k (x & Hx & Hle & _)%argmax_greatest. by exists x. }
  split.
  { (* KL *)
    intros logits2 m2 s Hm2.
    assert (Hsum2 : sum_list nvec = length logits2).
    { unfold MultiCategorical.init in Hm2.
      destruct (torch_split logits2 nvec) as [split2|] eqn:Hsplit; [|done].
      by apply torch_split_sum in Hsplit. }
    rewrite multicategorical_init_dims in Hm2 by done.
    injection Hm2 as <-.
    unfold MultiCategorical._kl_multi. cbn [MultiCategorical.categoricals].
    fold dims. rewrite zip_map_same, bind_Some. split.
    - intros (kls & Hkls%mapM_map_Some & [= <-]).
      exists kls. split; [done|]. rewrite fold_left_Rplus. lra.
    - intros (kls & Hkls & ->).
      exists kls. split; [by apply mapM_map_Some|].
      rewrite fold_left_Rplus. f_equal. lra. }
  (* KL to itself *)
  unfold MultiCategorical._kl_multi. rewrite kl_self_zeros.
  cbn [mbind option_bind]. rewrite fold_left_Rplus, tensor_sum_zeros.
  f_equal. lra.
Qed.

Lemma multicategorical_additivity_witness :
  exists m,
    MultiCategorical.init [0; 1; 2; 0; 0]%R [3; 2] = Some m /\
    MultiCategorical.entropy m
      = Some (tensor_sum
                (map (fun i => Categorical.entropy
                                 (Categorical.init
                                    (dim_logits [0; 1; 2; 0; 0]%R [3; 2] i)))
                     (seq 0 2))) /\
    MultiCategorical._kl_multi m m = Some 0%R.
Proof.
  destruct (multicategorical_additivity [0; 1; 2; 0; 0]%R [3; 2])
    as (m & Hinit & _ & _ & Hent & _ & _ & _ & Hkl).
  - discriminate.
  - reflexivity.
  - exists m. repeat split; assumption.
Defined.

(** ** The continuous distribution in the loss *)

Lemma ln_2PI_pos : (0 < ln (2 * PI))%R.
Proof.
  rewrite <- ln_1. apply ln_increasing; [lra|].
  pose proof PI2_1. lra.
Qed.

(** The entropy of one Gaussian dimension with log-std 0. *)
Lemma normal_entropy_unit (m : R) :
  Normal.entropy {| Normal.loc := m; Normal.scale := exp 0 |}
  = (1 / 2 + 1 / 2 * ln (2 * PI))%R.
Proof. unfold Normal.entropy. cbn. rewrite ln_exp. lra. Qed.

(** Line 288 on one state: the new log-probability is the sum over the
    dimensions of the per-dimension Gaussian log-probabilities. *)
Lemma continuous_new_log_probs_one_state (mean log_std action : list R) :
  length log_std = length mean ->
  length action = length mean ->
  continuous_new_log_probs (continuous_dist [mean] [log_std]) [action]
  = Some [tensor_sum
            (zip_with Normal.log_prob
               (zip_with (fun m ls => {| Normal.loc := m;
                                         Normal.scale := exp ls |})
                         mean log_std)
               action)].
Proof.
  intros Hls Ha. unfold continuous_new_log_probs, continuous_dist, elementwise2.
  cbn [zip_with]. unfold broadcast2 at 1. cbn [length decide].
  rewrite decide_True by done. cbn [zip_with mbind option_bind mapM].
  unfold broadcast2. rewrite decide_True; [done|].
  rewrite length_zip_with. lia.
Qed.

(** C3. For a continuous trainer with two action dimensions, on a batch of
    one state whose log-stds are both 0, the entropy term that
    [compute_ppo_loss] uses is the mean over the two dimensions,
    [1/2 + 1/2 ln(2 pi)], where the joint entropy of the state, the sum over
    its dimensions, is [1 + ln(2 pi)]: the two differ.  The new
    log-probability of the same batch is the sum over the dimensions. *)
Theorem continuous_entropy_is_mean_over_dims :
  let dist := continuous_dist [[0; 0]%R] [[0; 0]%R] in
  continuous_entropy dist = Some (1 / 2 + 1 / 2 * ln (2 * PI))%R /\
  joint_entropy_mean dist = Some (1 + ln (2 * PI))%R /\
  continuous_entropy dist <> joint_entropy_mean dist /\
  forall a1 a2 : R,
    continuous_new_log_probs dist [[a1; a2]] =
      Some [(Normal.log_prob {| Normal.loc := 0; Normal.scale := exp 0 |} a1
             + (Normal.log_prob {| Normal.loc := 0; Normal.scale := exp 0 |} a2
                + 0))%R].
Proof.
  intros dist.
  assert (He : continuous_entropy dist = Some (1 / 2 + 1 / 2 * ln (2 * PI))%R).
  { unfold dist, continuous_entropy, continuous_dist, tensor_mean, tensor_sum.
    cbn [zip_with map concat app foldr length INR].
    rewrite !normal_entropy_unit. f_equal. cbn. lra. }
  assert (Hj : joint_entropy_mean dist = Some (1 + ln (2 * PI))%R).
  { unfold dist, joint_entropy_mean, continuous_dist, tensor_mean, tensor_sum.
    cbn [zip_with map foldr length INR].
    rewrite !normal_entropy_unit. f_equal. cbn. lra. }
  split; [done|]. split; [done|]. split.
  - rewrite He, Hj. intros [= Heq]. pose proof ln_2PI_pos. lra.
  - intros a1 a2. unfold dist.
    by rewrite continuous_new_log_probs_one_state.
Qed.

Lemma tensor_sum_app (l1 l2 : list R) :
  tensor_sum (l1 ++ l2) = (tensor_sum l1 + tensor_sum l2)%R.
Proof.
  unfold tensor_sum. induction l1 as [|x l1 IH]; cbn [app foldr]; [lra|].
  rewrite IH. lra.
Qed.

Lemma tensor_sum_concat (rows : list (list R)) :
  tensor_sum (concat rows) = tensor_sum (map tensor_sum rows).
Proof.
  induction rows as [|row rows IH]; [done|].
  cbn [concat map]. rewrite tensor_sum_app, IH. reflexivity.
Qed.

Lemma length_concat_uniform {A} (rows : list (list A)) (d : nat) :
  Forall (fun row => length row = d) rows ->
  length (concat rows) = length rows * d.
Proof.
  induction 1 as [|row rows Hrow _ IH]; [done|].
  cbn [concat length]. rewrite length_app, IH, Hrow. lia.
Qed.

Lemma tensor_mean_Some (l : list R) :
  l <> [] -> tensor_mean l = Some (tensor_sum l / INR (length l))%R.
Proof. by destruct l. Qed.

(** On a batch of at least one state, each with the same number [d >= 1]
    of action dimensions, the entropy term of the continuous branch is the
    mean joint entropy divided by [d]. *)
Lemma continuous_entropy_joint_over_dims (dist : list (list Normal.t)) (d : nat) :
  dist <> [] -> d <> 0 ->
  Forall (fun row => length row = d) dist ->
  exists e j,
    continuous_entropy dist = Some e /\
    joint_entropy_mean dist = Some j /\
    (e * INR d = j)%R.
Proof.
  intros Hb Hd Hrows.
  set (rows := map (map Normal.entropy) dist).
  assert (Hlen : length (concat rows) = length dist * d).
  { unfold rows. rewrite (length_concat_uniform _ d), length_map; [done|].
    apply Forall_map. eapply Forall_impl; [exact Hrows|].
    intros row Hrow. cbn. by rewrite length_map. }
  assert (Hbpos : length dist <> 0) by (by destruct dist).
  eexists _, _. split; [|split].
  - unfold continuous_entropy. fold rows. apply tensor_mean_Some.
    intros Hnil. rewrite Hnil in Hlen. cbn in Hlen. nia.
  - unfold joint_entropy_mean. apply tensor_mean_Some. by destruct dist.
  - rewrite Hlen, length_map, mult_INR, tensor_sum_concat.
    unfold rows. rewrite map_map.
    pose proof (not_0_INR _ Hbpos). pose proof (not_0_INR _ Hd).
    by field.
Qed.

(** * Further properties *)

(** ** The estimator on other inputs *)

Section GAE_errors.
Context {T : Type} {arith : TensorArith T}.
Variables (gamma gae_lambda : T).
Variables (rewards values dones : list T) (next_value : T).

(** The loop raises exactly when one of the indices it reads is outside its
    tensor, and it never changes the length of [advantages]. *)
Lemma gae_loop_defined n advantages last_gae :
  is_Some (gae_loop gamma gae_lambda rewards values dones next_value
             n advantages last_gae) <->
  forall t, t < n ->
    is_Some (next_value_at rewards values next_value t) /\
    is_Some (rewards !! t) /\ is_Some (dones !! t) /\ is_Some (values !! t).
Proof.
  revert advantages last_gae.
  induction n as [|t IH]; intros advantages last_gae.
  - split; [intros _ t Ht; lia|intros _; by eexists].
  - cbn [gae_loop]. split.
    + intros Hrun t' Ht'.
      destruct (next_value_at rewards values next_value t) as [nv|] eqn:Hnv;
        cbn in Hrun; [|by destruct Hrun].
      destruct (rewards !! t) as [r|] eqn:Hr; cbn in Hrun; [|by destruct Hrun].
      destruct (dones !! t) as [d|] eqn:Hd; cbn in Hrun; [|by destruct Hrun].
      destruct (values !! t) as [v|] eqn:Hv; cbn in Hrun; [|by destruct Hrun].
      destruct (decide (t' = t)) as [->|Hne].
      * rewrite Hnv, Hr, Hd, Hv. by repeat split; eexists.
      * apply (proj1 (IH _ _) Hrun). lia.
    + intros Hall.
      destruct (Hall t) as ([nv ->] & [r ->] & [d ->] & [v ->]); [lia|].
      cbn. apply IH. intros t' Ht'. apply Hall. lia.
Qed.

Lemma gae_loop_length n advantages last_gae advantages' g :
  gae_loop gamma gae_lambda rewards values dones next_value
    n advantages last_gae = Some (advantages', g) ->
  length advantages' = length advantages.
Proof.
  revert advantages last_gae.
  induction n as [|t IH]; intros advantages last_gae; cbn [gae_loop].
  - by intros [= <- _].
  - destruct (next_value_at rewards values next_value t) as [nv|]; [|done].
    destruct (rewards !! t) as [r|]; [|done].
    destruct (dones !! t) as [d|]; [|done].
    destruct (values !! t) as [v|]; [|done]. cbn.
    intros Hrun%IH. by rewrite length_insert in Hrun.
Qed.
End GAE_errors.

Lemma broadcast2_defined {A B C} (f : A -> B -> C) (a : list A) (b : list B) :
  is_Some (broadcast2 f a b) <->
  length a = length b \/ length a = 1 \/ length b = 1.
Proof.
  unfold broadcast2. case_decide as Hlen.
  - split; [by left|]. intros _. by eexists.
  - destruct a as [|x [|x' a]], b as [|y [|y' b]]; cbn [length] in *;
      split; intros Hx;
      try lia; try (by eexists); try (by destruct Hx as [? ?]).
Qed.

(** X1. [compute_gae] returns a result exactly when [values] and [dones]
    are at least as long as [rewards] and [values] can be added to the
    advantages: it has the length of [rewards], or one of the two lengths is
    one (torch broadcasts).  On every other input it raises. *)
Theorem compute_gae_defined {T : Type} {arith : TensorArith T}
    (gamma gae_lambda : T) (rewards values dones : list T) (next_value : T) :
  is_Some (compute_gae gamma gae_lambda rewards values dones next_value) <->
  length rewards <= length values /\
  length rewards <= length dones /\
  (length values = length rewards \/ length rewards = 1 \/ length values = 1).
Proof.
  unfold compute_gae.
  pose proof (gae_loop_defined gamma gae_lambda rewards values dones next_value
                (length rewards) (replicate (length rewards) tzero) tzero)
    as Hloop.
  destruct (gae_loop gamma gae_lambda rewards values dones next_value
              (length rewards) (replicate (length rewards) tzero) tzero)
    as [[adv g]|] eqn:Hrun.
  - apply gae_loop_length in Hrun. rewrite length_replicate in Hrun.
    destruct Hloop as [Hloop _].
    assert (Hidx : forall t, t < length rewards ->
                     t < length values /\ t < length dones).
    { intros t Ht. destruct (Hloop ltac:(by eexists) t Ht) as (_ & _ & Hd & Hv).
      split; by apply lookup_lt_is_Some. }
    assert (Hlens : length rewards <= length values /\
                    length rewards <= length dones).
    { destruct (length rewards) as [|h]; [lia|].
      destruct (Hidx h); lia. }
    cbn. unfold tensor_add.
    destruct (broadcast2 tadd adv values) as [ret|] eqn:Hret; cbn.
    + split; [|by eexists]. intros _.
      assert (Hb : is_Some (broadcast2 tadd adv values)) by (by eexists).
      apply broadcast2_defined in Hb. rewrite Hrun in Hb. lia.
    + split; [by intros [? ?]|]. intros (_ & _ & Hb).
      assert (Hs : is_Some (broadcast2 tadd adv values)).
      { apply broadcast2_defined. rewrite Hrun. lia. }
      rewrite Hret in Hs. by destruct Hs.
  - cbn. split; [by intros [? ?]|]. intros (Hv & Hd & Hb).
    destruct Hloop as [_ Hloop]. destruct Hloop as [? ?]; [|done].
    intros t Ht. split; [|split; [|split]].
    + unfold next_value_at. case_decide; [by eexists|].
      apply lookup_lt_is_Some. lia.
    + apply lookup_lt_is_Some. lia.
    + apply lookup_lt_is_Some. lia.
    + apply lookup_lt_is_Some. lia.
Qed.

(** X2. A step recorded as done cuts the recursion: on tensors of one
    length, wherever [dones[t]] is 1 the advantage at [t] is
    [rewards[t] - values[t]], whatever follows and whatever gamma and lambda
    are. *)
Theorem compute_gae_done_isolates
    (gamma gae_lambda : Q) (rewards values dones : list Q) (next_value : Q)
    (t : nat) :
  length values = length rewards ->
  length dones = length rewards ->
  dones !! t = Some 1%Q ->
  exists advantages returns a r v,
    compute_gae gamma gae_lambda rewards values dones next_value
      = Some (advantages, returns) /\
    advantages !! t = Some a /\
    rewards !! t = Some r /\ values !! t = Some v /\
    (a == r - v)%Q.
Proof.
  intros Hv Hd Hdone.
  destruct (compute_gae_recursion gamma gae_lambda rewards values dones
              next_value Hv Hd) as (adv & ret & Hrun & Hlen & _ & Hrec).
  assert (Ht : t < length rewards).
  { apply lookup_lt_Some in Hdone. lia. }
  destruct (Hrec t Ht) as (nv & r & d & v & Hnv & Hr & Hd' & Hv' & Ha).
  rewrite Hdone in Hd'. injection Hd' as <-.
  exists adv, ret. eexists _, r, v.
  split; [done|]. split; [exact Ha|]. split; [done|]. split; [done|].
  unfold gae_step, gae_delta. cbn [tadd tsub tmul tone tzero Q_arith]. ring.
Qed.

Lemma compute_gae_done_isolates_witness :
  exists advantages returns a r v,
    compute_gae (99 # 100)%Q (95 # 100)%Q [1; 2; 3]%Q [4; 5; 6]%Q [0; 1; 0]%Q 7%Q
      = Some (advantages, returns) /\
    advantages !! 1 = Some a /\
    [1; 2; 3]%Q !! 1 = Some r /\ [4; 5; 6]%Q !! 1 = Some v /\
    (a == r - v)%Q.
Proof.
  apply (compute_gae_done_isolates (99 # 100)%Q (95 # 100)%Q
           [1; 2; 3]%Q [4; 5; 6]%Q [0; 1; 0]%Q 7%Q 1); reflexivity.
Defined.

(** X3. The estimate at an index looks only forward: two trajectories of
    one length, with the same bootstrap value, that agree from index [t0]
    on get the same advantages and the same returns from [t0] on, in any
    arithmetic. *)
Theorem compute_gae_looks_forward {T : Type} {arith : TensorArith T}
    (gamma gae_lambda : T)
    (rewards values dones rewards' values' dones' : list T)
    (next_value : T) (t0 : nat) :
  length values = length rewards ->
  length dones = length rewards ->
  length rewards' = length rewards ->
  length values' = length rewards ->
  length dones' = length rewards ->
  (forall t, t0 <= t ->
     rewards' !! t = rewards !! t /\ values' !! t = values !! t /\
     dones' !! t = dones !! t) ->
  exists advantages returns advantages' returns',
    compute_gae gamma gae_lambda rewards values dones next_value
      = Some (advantages, returns) /\
    compute_gae gamma gae_lambda rewards' values' dones' next_value
      = Some (advantages', returns') /\
    forall t, t0 <= t ->
      advantages' !! t = advantages !! t /\ returns' !! t = returns !! t.
Proof.
  intros Hv Hd Hr' Hv' Hd' Hagree.
  destruct (compute_gae_recursion gamma gae_lambda rewards values dones
              next_value Hv Hd) as (adv & ret & Hrun & Hlen & -> & Hrec).
  destruct (compute_gae_recursion gamma gae_lambda rewards' values' dones'
              next_value) as (adv' & ret' & Hrun' & Hlen' & -> & Hrec');
    [lia|lia|].
  exists adv, (zip_with tadd adv values), adv', (zip_with tadd adv' values').
  split; [done|]. split; [done|].
  assert (Hadv : forall k t, length rewards - t <= k -> t0 <= t ->
                   adv' !! t = adv !! t).
  { induction k as [|k IH]; intros t Hk Ht.
    - rewrite !lookup_ge_None_2; [done|lia|lia].
    - destruct (decide (t < length rewards)) as [Hlt|Hge];
        [|rewrite !lookup_ge_None_2; [done|lia|lia]].
      destruct (Hrec t Hlt) as (nv & r & d & v & Hnv & Hr & Hdn & Hvl & Ha).
      destruct (Hrec' t) as (nv' & r1 & d1 & v1 & Hnv1 & Hr1 & Hdn1 & Hvl1 & Ha');
        [lia|].
      destruct (Hagree t Ht) as (Er & Ev & Ed).
      rewrite Er, Hr in Hr1. rewrite Ev, Hvl in Hvl1. rewrite Ed, Hdn in Hdn1.
      injection Hr1 as <-. injection Hvl1 as <-. injection Hdn1 as <-.
      assert (nv' = nv) as ->.
      { unfold next_value_at in Hnv, Hnv1. rewrite Hr' in Hnv1.
        case_decide; [congruence|].
        destruct (Hagree (t + 1)) as (_ & Ev1 & _); [lia|]. congruence. }
      rewrite Ha, Ha'. by rewrite (IH (S t)) by lia. }
  intros t Ht.
  assert (Ea : adv' !! t = adv !! t) by (apply (Hadv (length rewards)); lia).
  split; [done|].
  rewrite !lookup_zip_with, Ea.
  by destruct (Hagree t Ht) as (_ & -> & _).
Qed.

Lemma compute_gae_looks_forward_witness :
  exists advantages returns advantages' returns',
    compute_gae (99 # 100)%Q (95 # 100)%Q [1; 2; 3]%Q [4; 5; 6]%Q [0; 1; 0]%Q 7%Q
      = Some (advantages, returns) /\
    compute_gae (99 # 100)%Q (95 # 100)%Q [8; 2; 3]%Q [9; 5; 6]%Q [1; 1; 0]%Q 7%Q
      = Some (advantages', returns') /\
    forall t, 1 <= t ->
      advantages' !! t = advantages !! t /\ returns' !! t = returns !! t.
Proof.
  apply (compute_gae_looks_forward (99 # 100)%Q (95 # 100)%Q
           [1; 2; 3]%Q [4; 5; 6]%Q [0; 1; 0]%Q
           [8; 2; 3]%Q [9; 5; 6]%Q [1; 1; 0]%Q 7%Q 1); try reflexivity.
  intros [|t] Ht; [lia|]. repeat split.
Defined.

(** X4. With [gae_lambda = 1] the returns are the discounted rewards to go:
    on tensors of one length, [returns[t]] is
    [rewards[t] + gamma * (1 - dones[t]) * returns[t + 1]], with the
    bootstrap value in place of [returns[H]]; the critic's values cancel. *)
Theorem compute_gae_lambda_one_returns
    (gamma : Q) (rewards values dones : list Q) (next_value : Q) :
  length values = length rewards ->
  length dones = length rewards ->
  exists advantages returns,
    compute_gae gamma 1%Q rewards values dones next_value
      = Some (advantages, returns) /\
    forall t, t < length rewards ->
      exists ret r d,
        returns !! t = Some ret /\
        rewards !! t = Some r /\ dones !! t = Some d /\
        (ret == r + gamma * (1 - d) * default next_value (returns !! S t))%Q.
Proof.
  intros Hv Hd.
  destruct (compute_gae_recursion gamma 1%Q rewards values dones
              next_value Hv Hd) as (adv & ret & Hrun & Hlen & -> & Hrec).
  exists adv, (zip_with tadd adv values). split; [done|].
  intros t Ht.
  destruct (Hrec t Ht) as (nv & r & d & v & Hnv & Hr & Hdn & Hvl & Ha).
  eexists _, r, d. split.
  { rewrite lookup_zip_with, Ha. cbn. rewrite Hvl. reflexivity. }
  split; [done|]. split; [done|].
  unfold next_value_at in Hnv. rewrite lookup_zip_with.
  case_decide as Hlast.
  - injection Hnv as <-.
    rewrite (lookup_ge_None_2 adv (S t)) by lia.
    unfold gae_step, gae_delta.
    cbn [default option_bind mbind tadd tsub tmul tone tzero Q_arith]. ring.
  - destruct (lookup_lt_is_Some_2 adv (S t)) as [a1 Ha1]; [lia|].
    rewrite Ha1. replace (t + 1) with (S t) in Hnv by lia.
    cbn [mbind option_bind]. rewrite Hnv.
    unfold gae_step, gae_delta.
    cbn [default option_bind mbind fmap option_fmap option_map
         tadd tsub tmul tone tzero Q_arith]. cbv [Datatypes.id]. ring.
Qed.

Lemma compute_gae_lambda_one_returns_witness :
  exists advantages returns,
    compute_gae (99 # 100)%Q 1%Q [1; 2; 3]%Q [4; 5; 6]%Q [0; 1; 0]%Q 7%Q
      = Some (advantages, returns) /\
    forall t, t < 3 ->
      exists ret r d,
        returns !! t = Some ret /\
        [1; 2; 3]%Q !! t = Some r /\ [0; 1; 0]%Q !! t = Some d /\
        (ret == r + (99 # 100) * (1 - d) * default 7%Q (returns !! S t))%Q.
Proof.
  apply (compute_gae_lambda_one_returns (99 # 100)%Q
           [1; 2; 3]%Q [4; 5; 6]%Q [0; 1; 0]%Q 7%Q); reflexivity.
Defined.

(** ** The epoch loop on other batches *)

Section TrainStep_cases.
Context {Params : Type}.
Variable target_kl : Q.
Variable compute_ppo_loss : Params -> Q * Q * Q.
Variable optimizer_step : Params -> Params.
Variable theta : Params.

(** The loop either meets a first epoch whose KL is above the threshold and
    stops there, or runs all its epochs. *)
Lemma epoch_loop_cases epochs j :
  (exists k,
     j <= k < j + epochs /\
     ((3 # 2) * target_kl < kl_at compute_ppo_loss optimizer_step theta k)%Q /\
     (forall i, j <= i < k ->
        (kl_at compute_ppo_loss optimizer_step theta i
         <= (3 # 2) * target_kl)%Q) /\
     epoch_loop target_kl compute_ppo_loss optimizer_step epochs
       (epoch_start compute_ppo_loss optimizer_step theta j)
     = epoch_stop compute_ppo_loss optimizer_step theta k) \/
  ((forall i, j <= i < j + epochs ->
      (kl_at compute_ppo_loss optimizer_step theta i
       <= (3 # 2) * target_kl)%Q) /\
   epoch_loop target_kl compute_ppo_loss optimizer_step epochs
     (epoch_start compute_ppo_loss optimizer_step theta j)
   = epoch_start compute_ppo_loss optimizer_step theta (j + epochs)).
Proof.
  revert j. induction epochs as [|epochs IH]; intros j.
  - right. split; [intros i Hi; lia|]. cbn [epoch_loop]. f_equal. lia.
  - rewrite epoch_loop_body.
    destruct (Qgt_bool (kl_at compute_ppo_loss optimizer_step theta j)
                ((3 # 2) * target_kl)%Q) eqn:Hkl.
    + left. exists j. apply Qgt_bool_true in Hkl.
      split; [lia|]. split; [done|]. split; [intros i Hi; lia|done].
    + apply Qgt_bool_false in Hkl.
      destruct (IH (S j)) as [(k & Hk & Habove & Hbelow & Hrun)|[Hbelow Hrun]].
      * left. exists k. split; [lia|]. split; [done|]. split; [|done].
        intros i Hi. destruct (decide (i = j)) as [->|Hne]; [done|].
        apply Hbelow. lia.
      * right. split.
        -- intros i Hi. destruct (decide (i = j)) as [->|Hne]; [done|].
           apply Hbelow. lia.
        -- rewrite Hrun. f_equal. lia.
Qed.
End TrainStep_cases.

(** X5. When none of the ten epochs has a KL above [1.5 * target_kl],
    [train_step] applies ten gradient steps and returns the means over the
    ten epochs. *)
Theorem train_step_all_epochs {Params : Type} (target_kl : Q)
    (compute_ppo_loss : Params -> Q * Q * Q)
    (optimizer_step : Params -> Params) (theta : Params) :
  (forall i, i < 10 ->
     (kl_at compute_ppo_loss optimizer_step theta i <= (3 # 2) * target_kl)%Q) ->
  n_steps (train_step_state target_kl compute_ppo_loss optimizer_step theta) = 10 /\
  train_step target_kl compute_ppo_loss optimizer_step theta =
    (Nat.iter 10 optimizer_step theta,
     {| total_loss :=
          np_mean (map (total_loss_at compute_ppo_loss optimizer_step theta)
                       (seq 0 10));
        value_loss :=
          np_mean (map (value_loss_at compute_ppo_loss optimizer_step theta)
                       (seq 0 10));
        kl_div :=
          np_mean (map (kl_at compute_ppo_loss optimizer_step theta)
                       (seq 0 10)) |}).
Proof.
  intros Hbelow.
  assert (Hrun : train_step_state target_kl compute_ppo_loss optimizer_step theta
                 = epoch_start compute_ppo_loss optimizer_step theta 10).
  { destruct (epoch_loop_cases target_kl compute_ppo_loss optimizer_step theta
                10 0) as [(k & Hk & Habove & _)|[_ Hrun]]; [|exact Hrun].
    specialize (Hbelow k ltac:(lia)).
    exfalso. by apply (Qlt_not_le _ _ Habove). }
  unfold train_step. by rewrite Hrun.
Qed.

Lemma train_step_all_epochs_witness :
  n_steps (train_step_state (10 # 1) counting_loss S 0) = 10 /\
  train_step (10 # 1) counting_loss S 0 =
    (10,
     {| total_loss := np_mean (map (total_loss_at counting_loss S 0) (seq 0 10));
        value_loss := np_mean (map (value_loss_at counting_loss S 0) (seq 0 10));
        kl_div := np_mean (map (kl_at counting_loss S 0) (seq 0 10)) |}).
Proof.
  apply (train_step_all_epochs (10 # 1) counting_loss S 0).
  intros i Hi.
  do 10 (destruct i as [|i]; [vm_compute; discriminate|]). lia.
Defined.

Section TrainStep_raising.
Context {Params Exn : Type}.
Variable target_kl : Q.
Variable compute_ppo_loss : Params -> Exn + PyFloat * PyFloat * PyFloat.
Variable optimizer_step : Params -> Params * option Exn.
Variable theta : Params.

(** Appending to the three lists keeps the entries already logged. *)
Lemma logged_at_snoc (st st' : Raising.EpochState) tl vl kl' i kl :
  Raising.total_losses st' = Raising.total_losses st ++ [tl] ->
  Raising.value_losses st' = Raising.value_losses st ++ [vl] ->
  Raising.kl_divs st' = Raising.kl_divs st ++ [kl'] ->
  Raising.logged_at compute_ppo_loss optimizer_step theta st i kl ->
  Raising.logged_at compute_ppo_loss optimizer_step theta st' i kl.
Proof.
  intros Ht Hv Hk (p & tl0 & vl0 & Hp & Hloss & Htl & Hvl & Hkl).
  exists p, tl0, vl0. rewrite Ht, Hv, Hk.
  repeat split; try done; by apply lookup_app_l_Some.
Qed.

(** The entry that an epoch appends. *)
Lemma logged_at_last (st st' : Raising.EpochState) tl vl kl j :
  length (Raising.total_losses st) = j ->
  length (Raising.value_losses st) = j ->
  length (Raising.kl_divs st) = j ->
  Raising.total_losses st' = Raising.total_losses st ++ [tl] ->
  Raising.value_losses st' = Raising.value_losses st ++ [vl] ->
  Raising.kl_divs st' = Raising.kl_divs st ++ [kl] ->
  Raising.params_after optimizer_step theta j = Some (Raising.params st) ->
  compute_ppo_loss (Raising.params st) = inr (tl, vl, kl) ->
  Raising.logged_at compute_ppo_loss optimizer_step theta st' j kl.
Proof.
  intros Hlt Hlv Hlk Ht Hv Hk Hp Hloss.
  exists (Raising.params st), tl, vl. rewrite Ht, Hv, Hk.
  repeat split; try done;
    rewrite lookup_app_r by lia;
    by rewrite ?Hlt, ?Hlv, ?Hlk, Nat.sub_diag.
Qed.

(** The loop entered at epoch [j], after [j] gradient steps, with [epochs]
    epochs to go. *)
Lemma epoch_loop_outcome epochs j (st : Raising.EpochState) :
  Raising.n_steps st = j ->
  length (Raising.total_losses st) = j ->
  length (Raising.value_losses st) = j ->
  length (Raising.kl_divs st) = j ->
  Raising.params_after optimizer_step theta j = Some (Raising.params st) ->
  (forall i, i < j -> exists kl,
     Raising.logged_at compute_ppo_loss optimizer_step theta st i kl /\
     float_gt kl ((3 # 2) * target_kl) = false) ->
  let run := Raising.epoch_loop target_kl compute_ppo_loss optimizer_step
               epochs st in
  let logged := length (Raising.kl_divs run.1) in
  j <= Raising.n_steps run.1 <= j + epochs /\
  logged <= j + epochs /\
  Raising.n_steps run.1 <= logged <= S (Raising.n_steps run.1) /\
  length (Raising.total_losses run.1) = logged /\
  length (Raising.value_losses run.1) = logged /\
  (forall i, i < logged -> exists kl,
     Raising.logged_at compute_ppo_loss optimizer_step theta run.1 i kl /\
     (i < Raising.n_steps run.1 ->
      float_gt kl ((3 # 2) * target_kl) = false)) /\
  match run.2 with
  | None =>
      Raising.params_after optimizer_step theta (Raising.n_steps run.1)
        = Some (Raising.params run.1) /\
      ((Raising.n_steps run.1 = j + epochs /\ logged = j + epochs) \/
       (logged = S (Raising.n_steps run.1) /\
        exists kl,
          Raising.kl_divs run.1 !! Raising.n_steps run.1 = Some kl /\
          float_gt kl ((3 # 2) * target_kl) = true))
  | Some exn =>
      exists p,
        Raising.params_after optimizer_step theta (Raising.n_steps run.1)
          = Some p /\
        ((logged = Raising.n_steps run.1 /\ Raising.params run.1 = p /\
          compute_ppo_loss p = inl exn) \/
         (logged = S (Raising.n_steps run.1) /\
          optimizer_step p = (Raising.params run.1, Some exn) /\
          exists kl,
            Raising.kl_divs run.1 !! Raising.n_steps run.1 = Some kl /\
            float_gt kl ((3 # 2) * target_kl) = false))
  end.
Proof.
  revert j st.
  induction epochs as [|epochs IH]; intros j st Hn Hlt Hlv Hlk Hp Hlog.
  - cbn [Raising.epoch_loop fst snd].
    split; [lia|]. split; [lia|]. split; [lia|]. split; [lia|]. split; [lia|].
    split.
    { intros i Hi. destruct (Hlog i) as (kl & Hkl & Hgt); [lia|].
      by exists kl. }
    split; [by rewrite Hn|]. left. lia.
  - cbn [Raising.epoch_loop].
    destruct (compute_ppo_loss (Raising.params st))
      as [exn|[[tl vl] kl]] eqn:Hloss.
    { cbn [fst snd].
      split; [lia|]. split; [lia|]. split; [lia|]. split; [lia|]. split; [lia|].
      split.
      { intros i Hi. destruct (Hlog i) as (kl & Hkl & Hgt); [lia|].
        by exists kl. }
      exists (Raising.params st). split; [by rewrite Hn|]. left.
      split; [lia|]. by split. }
    destruct (float_gt kl ((3 # 2) * target_kl)) eqn:Hgt.
    { cbn [fst snd Raising.n_steps Raising.kl_divs Raising.total_losses
             Raising.value_losses Raising.params].
      rewrite !length_app. cbn [length].
      split; [lia|]. split; [lia|]. split; [lia|]. split; [lia|]. split; [lia|].
      split.
      { intros i Hi. destruct (decide (i = j)) as [->|Hne].
        - exists kl. split; [|lia].
          by eapply (logged_at_last st).
        - destruct (Hlog i) as (kl0 & Hkl0 & Hgt0); [lia|].
          exists kl0. split; [|done].
          by eapply (logged_at_snoc st). }
      split; [by rewrite Hn|]. right. split; [lia|].
      exists kl. split; [|done].
      rewrite lookup_app_r by lia. by rewrite Hn, Hlk, Nat.sub_diag. }
    destruct (optimizer_step (Raising.params st)) as [theta' [exn|]] eqn:Hstep.
    { cbn [fst snd Raising.n_steps Raising.kl_divs Raising.total_losses
             Raising.value_losses Raising.params].
      rewrite !length_app. cbn [length].
      split; [lia|]. split; [lia|]. split; [lia|]. split; [lia|]. split; [lia|].
      split.
      { intros i Hi. destruct (decide (i = j)) as [->|Hne].
        - exists kl. split; [|lia].
          by eapply (logged_at_last st).
        - destruct (Hlog i) as (kl0 & Hkl0 & Hgt0); [lia|].
          exists kl0. split; [|done].
          by eapply (logged_at_snoc st). }
      exists (Raising.params st). split; [by rewrite Hn|]. right.
      split; [lia|]. split; [done|].
      exists kl. split; [|done].
      rewrite lookup_app_r by lia. by rewrite Hn, Hlk, Nat.sub_diag. }
    set (st1 := {| Raising.params := theta';
                   Raising.total_losses := Raising.total_losses st ++ [tl];
                   Raising.value_losses := Raising.value_losses st ++ [vl];
                   Raising.kl_divs := Raising.kl_divs st ++ [kl];
                   Raising.n_steps := S (Raising.n_steps st) |}).
    destruct (IH (S j) st1) as (H1 & H1' & H2 & H3 & H4 & H5 & H6).
    + cbn. lia.
    + cbn. rewrite length_app. cbn. lia.
    + cbn. rewrite length_app. cbn. lia.
    + cbn. rewrite length_app. cbn. lia.
    + cbn [Raising.params_after]. rewrite Hp. cbn [mbind option_bind].
      by rewrite Hstep.
    + intros i Hi. destruct (decide (i = j)) as [->|Hne].
      * exists kl. split; [|done]. by eapply (logged_at_last st).
      * destruct (Hlog i) as (kl0 & Hkl0 & Hgt0); [lia|].
        exists kl0. split; [|done]. by eapply (logged_at_snoc st).
    + split; [lia|]. split; [lia|]. split; [done|]. split; [done|].
      split; [done|]. split; [done|].
      destruct (Raising.epoch_loop target_kl compute_ppo_loss optimizer_step
                  epochs st1).2 as [exn|]; [done|].
      destruct H6 as [Hpar [[Hfull Hl]|Hstop]]; (split; [done|]).
      * left. lia.
      * by right.
Qed.
End TrainStep_raising.

(** On a batch where the loss is a triple of numbers at every parameter and
    nothing raises, this loop is the loop on numbers. *)
Lemma epoch_loop_finite {Params Exn : Type} (target_kl : Q)
    (loss : Params -> Q * Q * Q) (step : Params -> Params)
    (epochs : nat) (st : @EpochState Params) :
  Raising.epoch_loop (Exn := Exn) target_kl (finite_loss loss)
    (returning_step step) epochs (finite_state st)
  = (finite_state (epoch_loop target_kl loss step epochs st), None).
Proof.
  revert st. induction epochs as [|epochs IH]; intros st; [done|].
  cbn [Raising.epoch_loop epoch_loop]. unfold finite_loss at 1.
  cbn [Raising.params finite_state].
  destruct (loss (params st)) as [[tl vl] kl].
  cbn [float_gt]. destruct (Qgt_bool kl ((3 # 2) * target_kl)).
  - unfold finite_state. cbn. by rewrite !map_app.
  - unfold returning_step at 1.
    cbn [Raising.total_losses Raising.value_losses Raising.kl_divs
         Raising.n_steps].
    rewrite <- IH. f_equal. unfold finite_state. cbn. by rewrite !map_app.
Qed.

(** X6. Whatever [compute_ppo_loss] and the update return or raise on the
    batch, numbers, infinities or [nan], [train_step] applies at most ten
    gradient steps and logs as many epochs as steps, or one more.  Every
    logged entry is what [compute_ppo_loss] returned at the parameters
    reached by as many gradient steps as epochs came before, and the KL of
    every epoch that a step followed is not above [1.5 * target_kl]: a [nan]
    KL does not stop the loop.  When the loop is not left by an exception,
    it either ran all ten epochs with ten steps, or its last logged KL is
    above the threshold and no step followed; so at least one epoch is
    logged and [np.mean] is never taken of an empty list.  When it is left
    by an exception, either [compute_ppo_loss] raised it at the parameters
    reached, nothing being logged for that epoch, or the update raised it
    after the epoch was logged with a KL not above the threshold. *)
Theorem train_step_bounds {Params Exn : Type} (target_kl : Q)
    (compute_ppo_loss : Params -> Exn + PyFloat * PyFloat * PyFloat)
    (optimizer_step : Params -> Params * option Exn) (theta : Params) :
  let run := Raising.train_step_state target_kl compute_ppo_loss
               optimizer_step theta in
  let logged := length (Raising.kl_divs run.1) in
  Raising.n_steps run.1 <= 10 /\
  Raising.n_steps run.1 <= logged <= S (Raising.n_steps run.1) /\
  length (Raising.total_losses run.1) = logged /\
  length (Raising.value_losses run.1) = logged /\
  (forall i, i < logged -> exists kl,
     Raising.logged_at compute_ppo_loss optimizer_step theta run.1 i kl /\
     (i < Raising.n_steps run.1 ->
      float_gt kl ((3 # 2) * target_kl) = false)) /\
  match run.2 with
  | None =>
      1 <= logged <= 10 /\
      Raising.params_after optimizer_step theta (Raising.n_steps run.1)
        = Some (Raising.params run.1) /\
      ((Raising.n_steps run.1 = 10 /\ logged = 10) \/
       (logged = S (Raising.n_steps run.1) /\
        exists kl,
          Raising.kl_divs run.1 !! Raising.n_steps run.1 = Some kl /\
          float_gt kl ((3 # 2) * target_kl) = true))
  | Some exn =>
      exists p,
        Raising.params_after optimizer_step theta (Raising.n_steps run.1)
          = Some p /\
        ((logged = Raising.n_steps run.1 /\ Raising.params run.1 = p /\
          compute_ppo_loss p = inl exn) \/
         (logged = S (Raising.n_steps run.1) /\
          optimizer_step p = (Raising.params run.1, Some exn) /\
          exists kl,
            Raising.kl_divs run.1 !! Raising.n_steps run.1 = Some kl /\
            float_gt kl ((3 # 2) * target_kl) = false))
  end.
Proof.
  intros run logged. subst logged run. unfold Raising.train_step_state.
  destruct (epoch_loop_outcome target_kl compute_ppo_loss optimizer_step
              theta 10 0
              {| Raising.params := theta; Raising.total_losses := [];
                 Raising.value_losses := []; Raising.kl_divs := [];
                 Raising.n_steps := 0 |})
    as (H1 & H1' & H2 & H3 & H4 & H5 & H6); try done.
  { intros i Hi. lia. }
  split; [lia|]. split; [done|]. split; [done|]. split; [done|].
  split; [done|].
  destruct (Raising.epoch_loop target_kl compute_ppo_loss optimizer_step 10 _).2
    as [exn|]; [done|].
  destruct H6 as [Hpar [[Hfull Hl]|[Hl Hstop]]].
  - split; [lia|]. split; [done|]. left. lia.
  - split; [lia|]. split; [done|]. right. by split.
Qed.

(** ** Saving and loading checkpoints *)

Section SaveModel_facts.
Context {Path File StateDict : Type} `{Countable File}.
Variable cwd : Path.
Variable path_div : Path -> string -> Path.
Variable path_str : Path -> string.
Variable resolve : Path -> File.
Variable load_state_dict : StateDict -> StateDict -> LoadResult StateDict.

Lemma checkpoint_of_lookups (tr : @Trainer StateDict) :
  checkpoint_of tr !! "actor_state_dict" = Some (actor tr) /\
  checkpoint_of tr !! "critic_state_dict" = Some (critic tr) /\
  checkpoint_of tr !! "actor_optimizer_state_dict" = Some (actor_optimizer tr) /\
  checkpoint_of tr !! "critic_optimizer_state_dict"
    = Some (critic_optimizer tr).
Proof. unfold checkpoint_of. by repeat split; simplify_map_eq. Qed.

(** What [load_model] does on a file that [save_model] wrote. *)
Lemma load_saved (fs : gmap File (gmap string StateDict)) filename
    (saved tr : @Trainer StateDict) a c ao co :
  fs !! resolve (checkpoint_path cwd path_div filename)
    = Some (checkpoint_of saved) ->
  load_state_dict (actor tr) (actor saved) = Loaded a ->
  load_state_dict (critic tr) (critic saved) = Loaded c ->
  load_state_dict (actor_optimizer tr) (actor_optimizer saved) = Loaded ao ->
  load_state_dict (critic_optimizer tr) (critic_optimizer saved)
    = Loaded co ->
  load_model_from cwd path_div path_str resolve load_state_dict fs filename tr
  = ({| actor := a; critic := c; actor_optimizer := ao;
        critic_optimizer := co |}, inr tt).
Proof.
  intros Hfile Ha Hc Hao Hco.
  destruct (checkpoint_of_lookups saved) as (Ka & Kc & Kao & Kco).
  unfold load_model_from, load_model, fs_exists, fs_load.
  rewrite Hfile. rewrite bool_decide_true by (by eexists). cbn [negb].
  rewrite (load_bind_getitem _ _ (actor saved)) by done.
  rewrite (load_bind_load_into load_state_dict _ _ _ a) by done.
  rewrite (load_bind_getitem _ _ (critic saved)) by done.
  rewrite (load_bind_load_into load_state_dict _ _ _ c) by done.
  rewrite (load_bind_getitem _ _ (actor_optimizer saved)) by done.
  rewrite (load_bind_load_into load_state_dict _ _ _ ao) by done.
  rewrite (load_bind_getitem _ _ (critic_optimizer saved)) by done.
  unfold load_into. cbn. by rewrite Hco.
Qed.
End SaveModel_facts.

(** X7. Saving then loading gives the saved state back: when
    [load_state_dict] installs what it is given, [load_model] of a file
    name that [save_model] has just written succeeds and leaves the actor,
    the critic and both optimizers exactly as they were saved, whatever the
    trainer held before and whatever else the file system holds. *)
Theorem save_load_round_trip {Path File StateDict : Type} `{Countable File}
    (cwd : Path) (path_div : Path -> string -> Path)
    (path_str : Path -> string) (resolve : Path -> File)
    (load_state_dict : StateDict -> StateDict -> LoadResult StateDict)
    (fs : gmap File (gmap string StateDict))
    (filename : string) (saved tr : @Trainer StateDict) :
  (forall old new, load_state_dict old new = Loaded new) ->
  load_model_from cwd path_div path_str resolve load_state_dict
    (save_model cwd path_div resolve filename saved fs) filename tr
  = (saved, inr tt).
Proof.
  intros Hinstall.
  rewrite (load_saved cwd path_div path_str resolve load_state_dict _ filename
             saved tr (actor saved) (critic saved) (actor_optimizer saved)
             (critic_optimizer saved)); try done.
  - by destruct saved.
  - unfold save_model. by rewrite lookup_insert_eq.
Qed.

Lemma save_load_round_trip_witness :
  load_model_from "/work" string_path_div (fun p => p) (fun p : string => p)
    replace_state
    (save_model "/work" string_path_div (fun p : string => p) "run.pt"
       {| actor := 5; critic := 6; actor_optimizer := 7;
          critic_optimizer := 8 |} ∅)
    "run.pt" fresh_trainer
  = ({| actor := 5; critic := 6; actor_optimizer := 7;
        critic_optimizer := 8 |}, inr tt).
Proof.
  apply (save_load_round_trip "/work" string_path_div (fun p => p)
           (fun p : string => p) replace_state ∅ "run.pt").
  reflexivity.
Defined.

(** X9. A checkpoint file that lacks a field is loaded in part: with
    ['actor_state_dict'] present and ['critic_state_dict'] missing,
    [load_model] raises [KeyError] for the missing key after the actor has
    been overwritten; the critic and both optimizers are as before.  With
    ['actor_state_dict'] missing nothing is written. *)
Theorem load_model_missing_field {Path StateDict : Type}
    (cwd : Path) (path_div : Path -> string -> Path)
    (path_str : Path -> string) (path_exists : Path -> bool)
    (torch_load : Path -> option (gmap string StateDict))
    (load_state_dict : StateDict -> StateDict -> LoadResult StateDict)
    (tr : @Trainer StateDict) (filename : string)
    (checkpoint : gmap string StateDict) :
  let path := path_div (path_div cwd "checkpoints") filename in
  let run := load_model cwd path_div path_str path_exists torch_load
               load_state_dict filename tr in
  path_exists path = true ->
  torch_load path = Some checkpoint ->
  (checkpoint !! "actor_state_dict" = None ->
   run = (tr, inl (KeyError "actor_state_dict"))) /\
  (forall a a',
     checkpoint !! "actor_state_dict" = Some a ->
     load_state_dict (actor tr) a = Loaded a' ->
     checkpoint !! "critic_state_dict" = None ->
     run = ({| actor := a'; critic := critic tr;
               actor_optimizer := actor_optimizer tr;
               critic_optimizer := critic_optimizer tr |},
            inl (KeyError "critic_state_dict"))).
Proof.
  intros path run Hex Hload. subst run.
  unfold load_model, checkpoint_path. fold path. rewrite Hex, Hload.
  cbn [negb]. split.
  - intros Ha. unfold load_bind at 1. unfold getitem at 1. by rewrite Ha.
  - intros a a' Ha Hla Hc.
    rewrite (load_bind_getitem _ _ a) by done.
    rewrite (load_bind_load_into load_state_dict _ _ _ a') by done.
    unfold load_bind at 1. unfold getitem at 1. by rewrite Hc.
Qed.

Lemma load_model_missing_field_witness :
  load_model "/work" string_path_div (fun p => p) one_file_exists
    actor_only_load replace_state "ppo_latest.pth" fresh_trainer
  = ({| actor := 9; critic := 0; actor_optimizer := 0;
        critic_optimizer := 0 |}, inl (KeyError "critic_state_dict")).
Proof.
  apply (proj2 (load_model_missing_field "/work" string_path_div (fun p => p)
                  one_file_exists actor_only_load replace_state fresh_trainer
                  "ppo_latest.pth" (<["actor_state_dict" := 9]> ∅)
                  eq_refl eq_refl) 9 9); reflexivity.
Defined.

(** ** The loop of [train] *)


Section Train_facts.
Context {World : Type}.
Variables (env_name model_name : string).
Variable update_iteration : nat -> World -> World.
Variable save_checkpoint : string -> World -> World.
Variable evaluate : nat -> World -> World * bool.

End Train_facts.








(** ** Evaluation episodes *)

Lemma Qsum_snoc (l : list Q) (x : Q) : (Qsum (l ++ [x]) == Qsum l + x)%Q.
Proof.
  unfold Qsum. induction l as [|y l IH]; cbn [app foldr]; [ring|].
  rewrite IH. ring.
Qed.

Lemma py_min_least (a : option Q) (b : Q) (ds : list Q) :
  match a with
  | None => ds = []
  | Some m => m ∈ ds /\ Forall (fun d => (m <= d)%Q) ds
  end ->
  py_min a b ∈ ds ++ [b] /\
  Forall (fun d => (py_min a b <= d)%Q) (ds ++ [b]).
Proof.
  destruct a as [m|]; cbn [py_min].
  - intros [Hin Hle]. destruct (Qlt_le_dec b m) as [Hlt|Hge].
    + split; [set_solver|]. apply Forall_app. split.
      * eapply Forall_impl; [exact Hle|]. cbn. intros d Hd.
        apply Qlt_le_weak in Hlt. by eapply Qle_trans.
      * apply Forall_singleton. apply Qle_refl.
    + split; [set_solver|]. apply Forall_app. split; [done|].
      by apply Forall_singleton.
  - intros ->. split; [set_solver|]. apply Forall_singleton, Qle_refl.
Qed.

Section Evaluate_facts.
Context {Obs Act EnvState Rng : Type}.
Variable env_reset_render : EnvState -> Obs * EnvState.
Variable eval_env_step : EnvState -> Act -> @EvalStep Obs * EnvState.
Variable eval_policy_sample : Rng -> Obs -> Act * Rng.
Variables (e : EnvState) (g : Rng).

Lemma evaluate_run_invariant i :
  evaluate_invariant i
    (evaluate_run env_reset_render eval_env_step eval_policy_sample e g i).
Proof.
  unfold evaluate_run. induction i as [|i IH].
  - cbn [Nat.iter]. unfold evaluate_init. destruct (env_reset_render e).
    by repeat split.
  - rewrite Nat.iter_succ.
    set (v := Nat.iter i _ _) in *.
    destruct IH as (Hlen & Hsum & Hterm & Htrunc & Hmin).
    unfold evaluate_step.
    destruct (eval_policy_sample (eval_rng v) (eval_state v)) as [action rng'].
    destruct (eval_env_step (eval_env v) action) as [res env'].
    unfold evaluate_invariant.
    cbn [eval_steps episode_reward ev_terminated ev_truncated min_rel_dist].
    rewrite !map_app, last_snoc, length_app. cbn [map length from_option].
    split; [lia|]. split; [by rewrite Qsum_snoc, Hsum|].
    split; [done|]. split; [done|].
    by apply py_min_least.
Qed.

Lemma eval_env_run_snoc e0 acts steps e1 a :
  eval_env_run eval_env_step e0 acts steps e1 ->
  eval_env_run eval_env_step e0 (acts ++ [a])
    (steps ++ [(eval_env_step e1 a).1]) (eval_env_step e1 a).2.
Proof.
  revert e0 steps.
  induction acts as [|a1 acts IH]; intros e0 [|res steps]; cbn; try done.
  - by intros ->.
  - intros [Hres Hrun]. split; [done|]. by apply IH.
Qed.

Lemma eval_policy_run_snoc g0 obs acts g1 o :
  eval_policy_run eval_policy_sample g0 obs acts g1 ->
  eval_policy_run eval_policy_sample g0 (obs ++ [o])
    (acts ++ [(eval_policy_sample g1 o).1]) (eval_policy_sample g1 o).2.
Proof.
  revert g0 acts.
  induction obs as [|o1 obs IH]; intros g0 [|a acts]; cbn; try done.
  - by intros ->.
  - intros [Ha Hrun]. split; [done|]. by apply IH.
Qed.

(** Every pass steps the environment with the action sampled at the state
    held and logs what the environment returned. *)
Lemma evaluate_run_played i :
  played env_reset_render eval_env_step eval_policy_sample e g
    (evaluate_run env_reset_render eval_env_step eval_policy_sample e g i).
Proof.
  unfold evaluate_run. induction i as [|i IH].
  - cbn [Nat.iter]. unfold played, evaluate_init.
    destruct (env_reset_render e) as [obs e0]. by exists [], [].
  - rewrite Nat.iter_succ.
    set (v := Nat.iter i _ _) in *.
    destruct IH as (observations & acts & Hobs & Hpol & Henv).
    pose proof (eval_policy_run_snoc _ _ _ _ (eval_state v) Hpol) as Hpol'.
    unfold played, evaluate_step.
    destruct (eval_policy_sample (eval_rng v) (eval_state v))
      as [action rng'].
    pose proof (eval_env_run_snoc _ _ _ _ action Henv) as Henv'.
    destruct (eval_env_step (eval_env v) action) as [res env'].
    exists (observations ++ [eval_state v]), (acts ++ [action]).
    cbn [eval_state eval_steps eval_rng eval_env].
    split; [|done]. by rewrite Hobs, map_app.
Qed.

(** The loop stops with the first pass that reports an end. *)
Lemma evaluate_loop_stops fuel j k :
  j <= k -> k - j < fuel ->
  (forall i, j <= i <= k ->
     let v := evaluate_run env_reset_render eval_env_step eval_policy_sample
                e g i in
     ev_truncated v = false /\ ev_terminated v = false) ->
  (let v := evaluate_run env_reset_render eval_env_step eval_policy_sample
              e g (S k) in
   ev_truncated v = true \/ ev_terminated v = true) ->
  evaluate_loop eval_env_step eval_policy_sample fuel
    (evaluate_run env_reset_render eval_env_step eval_policy_sample e g j)
  = Some (evaluate_run env_reset_render eval_env_step eval_policy_sample
            e g (S k)).
Proof.
  revert j. induction fuel as [|fuel IH]; intros j Hjk Hfuel Hon Hend; [lia|].
  cbn [evaluate_loop].
  destruct (Hon j) as [-> ->]; [lia|]. cbn [negb andb].
  change (evaluate_step eval_env_step eval_policy_sample
            (evaluate_run env_reset_render eval_env_step eval_policy_sample
               e g j))
    with (evaluate_run env_reset_render eval_env_step eval_policy_sample
            e g (S j)).
  destruct (decide (j = k)) as [->|Hne].
  - destruct fuel as [|fuel]; cbn [evaluate_loop];
      by destruct Hend as [-> | ->]; rewrite ?andb_false_r.
  - apply IH; [lia|lia| |done]. intros i Hi. apply Hon. lia.
Qed.
End Evaluate_facts.

(** X12. If the episode that [evaluate_agent] plays ends with its
    [(k+1)]-th step (the first to report [terminated] or [truncated]), then
    with fuel for more than [k] passes it steps the environment exactly
    [k + 1] times, each time with the action the policy sampled at the state
    held, and what it reads are the environment's own answers: the episode
    reward is the sum of the rewards the steps returned, the minimum
    relative distance is the least of the distances their [info] reported,
    and the success counter goes up by one exactly when the last step's
    [info] reports success. *)
Theorem evaluate_agent_episode {Obs Act EnvState Rng : Type}
    (env_reset_render : EnvState -> Obs * EnvState)
    (eval_env_step : EnvState -> Act -> @EvalStep Obs * EnvState)
    (eval_policy_sample : Rng -> Obs -> Act * Rng)
    (fuel success_count : nat) (e : EnvState) (g : Rng) (k : nat) :
  k < fuel ->
  (forall i, i <= k ->
     let v := evaluate_run env_reset_render eval_env_step eval_policy_sample
                e g i in
     ev_truncated v = false /\ ev_terminated v = false) ->
  (let v := evaluate_run env_reset_render eval_env_step eval_policy_sample
              e g (S k) in
   ev_truncated v = true \/ ev_terminated v = true) ->
  exists v last_step m count,
    evaluate_agent env_reset_render eval_env_step eval_policy_sample
      fuel success_count e g = Some (v, count) /\
    played env_reset_render eval_env_step eval_policy_sample e g v /\
    length (eval_steps v) = S k /\
    last (eval_steps v) = Some last_step /\
    (eval_terminated last_step || eval_truncated last_step = true) /\
    (episode_reward v == Qsum (map eval_reward (eval_steps v)))%Q /\
    min_rel_dist v = Some m /\
    m ∈ map relative_distance (eval_steps v) /\
    Forall (fun d => (m <= d)%Q) (map relative_distance (eval_steps v)) /\
    count = (if success last_step then success_count + 1 else success_count).
Proof.
  intros Hfuel Hon Hend.
  pose proof (evaluate_loop_stops env_reset_render eval_env_step
                eval_policy_sample e g fuel 0 k) as Hrun.
  unfold evaluate_agent.
  change (evaluate_init env_reset_render e g)
    with (evaluate_run env_reset_render eval_env_step eval_policy_sample e g 0).
  rewrite Hrun; [|lia|lia| |done]; [|intros i Hi; apply Hon; lia].
  cbn [mbind option_bind].
  destruct (evaluate_run_invariant env_reset_render eval_env_step
              eval_policy_sample e g (S k))
    as (Hlen & Hsum & Hterm & Htrunc & Hmin).
  set (v := evaluate_run _ _ _ e g (S k)) in *.
  destruct (last (eval_steps v)) as [last_step|] eqn:Hlast.
  2: { apply last_None in Hlast. rewrite Hlast in Hlen. discriminate. }
  destruct (min_rel_dist v) as [m|] eqn:Hm.
  2: { apply (f_equal length) in Hmin. rewrite length_map, Hlen in Hmin.
       discriminate. }
  exists v, last_step, m. eexists. cbn [mbind option_bind].
  split; [reflexivity|].
  split; [apply evaluate_run_played|].
  split; [done|]. split; [done|]. split.
  { cbn [from_option] in Hterm, Htrunc. rewrite <- Hterm, <- Htrunc.
    cbn zeta in Hend. destruct Hend as [-> | ->]; by rewrite ?orb_true_r. }
  split; [done|]. split; [done|]. by destruct Hmin.
Qed.

Lemma evaluate_agent_episode_witness :
  exists v last_step m count,
    evaluate_agent (fun _ : nat => (0, 0)) three_step_eval
      (fun (g : unit) (_ : nat) => (tt, g)) 5 7 0 tt = Some (v, count) /\
    played (fun _ : nat => (0, 0)) three_step_eval
      (fun (g : unit) (_ : nat) => (tt, g)) 0 tt v /\
    length (eval_steps v) = 3 /\
    last (eval_steps v) = Some last_step /\
    (eval_terminated last_step || eval_truncated last_step = true) /\
    (episode_reward v == Qsum (map eval_reward (eval_steps v)))%Q /\
    min_rel_dist v = Some m /\
    m ∈ map relative_distance (eval_steps v) /\
    Forall (fun d => (m <= d)%Q) (map relative_distance (eval_steps v)) /\
    count = (if success last_step then 7 + 1 else 7).
Proof.
  apply (evaluate_agent_episode (fun _ : nat => (0, 0)) three_step_eval
           (fun (g : unit) (_ : nat) => (tt, g)) 5 7 0 tt 2).
  - lia.
  - intros i Hi.
    do 3 (destruct i as [|i]; [split; reflexivity|]). lia.
  - right. reflexivity.
Defined.

(** ** Episode rewards of a rollout *)

Section Rollout_rewards.
Context {Obs Act EnvState Rng : Type}.
Variable env_reset : EnvState -> Obs * EnvState.
Variable env_step : EnvState -> Act -> @StepResult Q Obs * EnvState.
Variable policy_sample : Rng -> Obs -> Act * Q * Rng.
Variable critic : Obs -> Q.

Lemma rollout_step_rewards (c : @Collector Q Obs Act EnvState Rng) :
  (Qsum (episode_rewards c) + current_episode_reward c == Qsum (rewards c))%Q ->
  length (episode_rewards c) + 1 = reset_count (calls c) ->
  let c' := rollout_step env_reset env_step policy_sample critic c in
  (Qsum (episode_rewards c') + current_episode_reward c'
   == Qsum (rewards c'))%Q /\
  length (episode_rewards c') + 1 = reset_count (calls c').
Proof.
  intros Hsum Hcount. unfold rollout_step.
  destruct (policy_sample (rng c) (state c)) as [[action log_prob] rng'].
  destruct (env_step (env c) action) as [res env'].
  destruct (terminated res || truncated res).
  - destruct (env_reset env') as [obs env''].
    cbn [episode_rewards current_episode_reward rewards calls].
    unfold reset_count in *. rewrite !omap_app, !length_app.
    cbn [omap list_omap length tadd tzero Q_arith]. split; [|lia].
    rewrite !Qsum_snoc, <- Hsum. ring.
  - cbn [episode_rewards current_episode_reward rewards calls].
    unfold reset_count in *. rewrite !omap_app, !length_app.
    cbn [omap list_omap length tadd tzero Q_arith]. split; [|lia].
    rewrite !Qsum_snoc, <- Hsum. ring.
Qed.
End Rollout_rewards.

(** X13. No reward is lost or counted twice by [collect_rollout]: the sums
    of the completed episodes together with the running sum of the episode
    still open add up to the sum of all recorded rewards, and one episode
    sum is recorded for each reset after the first. *)
Theorem collect_rollout_reward_account {Obs Act EnvState Rng : Type}
    (env_reset : EnvState -> Obs * EnvState)
    (env_step : EnvState -> Act -> @StepResult Q Obs * EnvState)
    (policy_sample : Rng -> Obs -> Act * Q * Rng)
    (critic : Obs -> Q)
    (max_steps : nat) (e : EnvState) (g : Rng) :
  let ro := collect_rollout env_reset env_step policy_sample critic
              max_steps e g in
  (Qsum (episode_rewards ro.1) + current_episode_reward ro.1
   == Qsum (rewards ro.1))%Q /\
  length (episode_rewards ro.1) + 1 = reset_count (calls ro.1).
Proof.
  cbn zeta. unfold collect_rollout. cbn [fst].
  induction max_steps as [|n IH].
  - cbn [Nat.iter]. unfold rollout_init. destruct (env_reset e) as [obs e0].
    cbn. split; [ring|done].
  - rewrite Nat.iter_succ. destruct IH as [Hsum Hcount].
    by apply rollout_step_rewards.
Qed.

(** ** The clipped objective *)

Lemma tensor_mean_one (x : R) : tensor_mean [x] = Some x.
Proof. unfold tensor_mean, tensor_sum. cbn. f_equal. field. Qed.

Lemma clamp_above (x lo hi : R) : (hi <= x)%R -> clamp x lo hi = hi.
Proof.
  intros Hx. unfold clamp. apply Rmin_right.
  eapply Rle_trans; [exact Hx|]. apply Rmax_l.
Qed.

Lemma clamp_below (x lo hi : R) :
  (lo <= hi)%R -> (x <= lo)%R -> clamp x lo hi = lo.
Proof.
  intros Hlh Hx. unfold clamp. rewrite Rmax_right by done.
  by apply Rmin_left.
Qed.

Lemma clamp_inside (x lo hi : R) :
  (lo <= x)%R -> (x <= hi)%R -> clamp x lo hi = x.
Proof.
  intros Hlo Hhi. unfold clamp. rewrite Rmax_left by done.
  by apply Rmin_left.
Qed.

Lemma broadcast2_same_length {A B C} (f : A -> B -> C) (a : list A)
    (b : list B) :
  length a = length b -> broadcast2 f a b = Some (zip_with f a b).
Proof. intros Hlen. unfold broadcast2. by rewrite decide_True. Qed.

(** The objective on a batch of one sample. *)
Lemma ppo_objective_one (clip_ratio n old adv ret v entropy : R) :
  ppo_objective clip_ratio [n] (Some entropy) [v] [old] [adv] [ret] =
  Some ((- Rmin (exp (n - old) * adv)
              (clamp (exp (n - old)) (1 - clip_ratio) (1 + clip_ratio) * adv)
         + 1 / 2 * (v - ret) ^ 2 - 1 / 100 * entropy)%R,
        ((v - ret) ^ 2)%R, (old - n)%R).
Proof.
  unfold ppo_objective.
  repeat (rewrite broadcast2_same_length by done;
          cbn [mbind option_bind map zip_with]).
  rewrite ?tensor_mean_one. cbn [mbind option_bind].
  repeat (rewrite broadcast2_same_length by done;
          cbn [mbind option_bind map zip_with]).
  by rewrite ?tensor_mean_one.
Qed.

(** X14. On a batch of one sample the clip takes the policy out of the
    loss once the ratio has left the trust region in the direction the
    advantage favours: with a non-negative advantage and a ratio of at
    least [1 + clip_ratio] the total loss is
    [-(1 + clip_ratio) * advantage + value_loss / 2 - entropy / 100],
    and with a non-positive advantage and a ratio of at most
    [1 - clip_ratio] it is the same with [1 - clip_ratio]; neither depends
    on the new log-probability. *)
Theorem ppo_objective_clip_containment
    (clip_ratio n old adv ret v entropy : R) :
  (0 <= clip_ratio)%R ->
  ((0 <= adv)%R -> (1 + clip_ratio <= exp (n - old))%R ->
   ppo_objective clip_ratio [n] (Some entropy) [v] [old] [adv] [ret] =
   Some ((- ((1 + clip_ratio) * adv) + 1 / 2 * (v - ret) ^ 2
          - 1 / 100 * entropy)%R,
         ((v - ret) ^ 2)%R, (old - n)%R)) /\
  ((adv <= 0)%R -> (exp (n - old) <= 1 - clip_ratio)%R ->
   ppo_objective clip_ratio [n] (Some entropy) [v] [old] [adv] [ret] =
   Some ((- ((1 - clip_ratio) * adv) + 1 / 2 * (v - ret) ^ 2
          - 1 / 100 * entropy)%R,
         ((v - ret) ^ 2)%R, (old - n)%R)).
Proof.
  intros Heps. rewrite ppo_objective_one. split.
  - intros Hadv Hratio. rewrite clamp_above by done.
    rewrite Rmin_right; [done|]. by apply Rmult_le_compat_r.
  - intros Hadv Hratio. rewrite clamp_below by (done || lra).
    rewrite Rmin_right; [done|]. nra.
Qed.

Lemma ppo_objective_clip_containment_witness :
  ppo_objective (1 / 5) [1%R] (Some 0%R) [0%R] [0%R] [1%R] [0%R] =
  Some ((- ((1 + 1 / 5) * 1) + 1 / 2 * (0 - 0) ^ 2 - 1 / 100 * 0)%R,
        ((0 - 0) ^ 2)%R, (0 - 1)%R).
Proof.
  apply (proj1 (ppo_objective_clip_containment (1 / 5) 1 0 1 0 0 0
                  ltac:(lra))).
  - lra.
  - pose proof (exp_ineq1_le (1 - 0)). lra.
Defined.








(** ** Advantage normalization *)

Lemma tensor_sum_centered (l : list R) (m c : R) :
  tensor_sum (map (fun a => ((a - m) / c)%R) l)
  = ((tensor_sum l - INR (length l) * m) / c)%R.
Proof.
  unfold tensor_sum. induction l as [|x l IH].
  - cbn. lra.
  - cbn [map foldr length]. rewrite IH, S_INR. lra.
Qed.

Lemma tensor_sum_shift (l : list R) (c : R) :
  tensor_sum (map (fun a => (a + c)%R) l)
  = (tensor_sum l + INR (length l) * c)%R.
Proof.
  unfold tensor_sum. induction l as [|x l IH].
  - cbn. lra.
  - cbn [map foldr length]. rewrite IH, S_INR. lra.
Qed.

Lemma tensor_mean_shift (l : list R) (c m : R) :
  tensor_mean l = Some m ->
  tensor_mean (map (fun a => (a + c)%R) l) = Some (m + c)%R.
Proof.
  intros Hm.
  assert (Hne : l <> []) by (by destruct l).
  rewrite tensor_mean_Some in Hm by done. injection Hm as <-.
  rewrite tensor_mean_Some by (by destruct l).
  rewrite tensor_sum_shift, length_map. f_equal.
  assert (Hn : INR (length l) <> 0%R)
    by (apply not_0_INR; by destruct l).
  set (n := INR (length l)) in *. by field.
Qed.

Lemma torch_std_shift (l : list R) (c : R) :
  torch_std (map (fun a => (a + c)%R) l) = torch_std l.
Proof.
  unfold torch_std. destruct (tensor_mean l) as [m|] eqn:Hm.
  - rewrite (tensor_mean_shift l c m Hm). cbn [mbind option_bind].
    rewrite length_map. case_decide; [done|].
    f_equal. f_equal. f_equal. f_equal.
    rewrite map_map. apply map_ext. intros a. f_equal. lra.
  - by destruct l.
Qed.

Lemma torch_std_nonneg (l : list R) (s : R) :
  torch_std l = Some s -> (0 <= s)%R.
Proof.
  unfold torch_std. destruct (tensor_mean l); [|done]. cbn.
  case_decide; [done|]. intros [= <-]. apply sqrt_pos.
Qed.

Lemma length_pos_nonempty {A} (l : list A) (n : nat) :
  S n <= length l -> l <> [].
Proof. intros Hlen ->. cbn in Hlen. lia. Qed.

Lemma torch_std_defined (l : list R) :
  2 <= length l -> is_Some (torch_std l).
Proof.
  intros Hlen. unfold torch_std.
  rewrite tensor_mean_Some by (by eapply length_pos_nonempty).
  cbn [mbind option_bind].
  rewrite decide_False by lia. by eexists.
Qed.

Lemma mapM_total {A B} (f : A -> option B) (h : A -> B) (l : list A) :
  (forall a, f a = Some (h a)) -> mapM f l = Some (map h l).
Proof.
  intros Hf. apply mapM_Some.
  induction l as [|a l IH]; cbn [map]; constructor; auto.
Qed.

(** Where mean and std are numbers, every entry is. *)
Lemma normalize_advantages_Some (l : list R) (m s : R) :
  tensor_mean l = Some m -> torch_std l = Some s ->
  normalize_advantages l
  = Some (map (fun a => ((a - m) / (s + 1 / 10 ^ 8))%R) l).
Proof.
  intros Hm Hs. unfold normalize_advantages. apply mapM_total.
  intros a. by rewrite Hm, Hs.
Qed.

(** X16. On a batch of at least two advantages the normalization of
    [train_step] returns as many numbers as it got, their sum (so their
    mean) is 0, and adding one constant to every advantage does not change
    the result. *)
Theorem normalize_advantages_zero_mean (advantages : list R) :
  2 <= length advantages ->
  exists normalized,
    normalize_advantages advantages = Some normalized /\
    length normalized = length advantages /\
    tensor_sum normalized = 0%R /\
    forall c,
      normalize_advantages (map (fun a => (a + c)%R) advantages)
      = Some normalized.
Proof.
  intros Hlen.
  assert (Hne : advantages <> []) by (by eapply length_pos_nonempty).
  assert (Hn : INR (length advantages) <> 0%R) by (apply not_0_INR; lia).
  destruct (torch_std_defined advantages Hlen) as [std Hstd].
  rewrite (normalize_advantages_Some advantages _ std
             (tensor_mean_Some _ Hne) Hstd).
  eexists. split; [done|].
  pose proof (torch_std_nonneg _ _ Hstd) as Hpos.
  split; [by rewrite length_map|]. split.
  - rewrite tensor_sum_centered. field. repeat split; first [done | lra].
  - intros c.
    rewrite (normalize_advantages_Some _ _ std
               (tensor_mean_shift advantages c _ (tensor_mean_Some _ Hne))
               (eq_trans (torch_std_shift advantages c) Hstd)).
    f_equal. rewrite map_map. apply map_ext. intros a. f_equal. lra.
Qed.

Lemma normalize_advantages_zero_mean_witness :
  exists normalized,
    normalize_advantages [1; 2; 6]%R = Some normalized /\
    length normalized = 3 /\
    tensor_sum normalized = 0%R /\
    forall c,
      normalize_advantages (map (fun a => (a + c)%R) [1; 2; 6]%R)
      = Some normalized.
Proof.
  apply (normalize_advantages_zero_mean [1; 2; 6]%R). cbn. lia.
Defined.

(** X17. The normalization of [train_step] gives [nan] advantages on a
    batch of exactly one step, and on no other batch: the standard deviation
    of one number is [nan] under Bessel's correction, so its one entry is;
    a batch of two or more has a mean and a standard deviation; and on a
    batch without entries, where both are [nan], the result is the empty
    tensor, which holds no [nan]. *)
Theorem normalize_advantages_small_batch (advantages : list R) :
  (normalize_advantages advantages = None <-> length advantages = 1) /\
  normalize_advantages [] = Some [].
Proof.
  split; [split|done].
  - destruct advantages as [|a [|b l]]; cbn [length]; [done|done|].
    intros Hnone. exfalso.
    destruct (torch_std_defined (a :: b :: l)) as [std Hstd]; [cbn; lia|].
    assert (Hne : a :: b :: l <> []) by done.
    rewrite (normalize_advantages_Some _ _ std (tensor_mean_Some _ Hne) Hstd)
      in Hnone.
    discriminate.
  - destruct advantages as [|a [|b l]]; cbn [length]; [done| |lia].
    intros _. unfold normalize_advantages, torch_std. cbn [mapM].
    rewrite tensor_mean_one. by cbn.
Qed.

(** ** The actor's forward pass *)

Lemma clamp_bounds (x lo hi : R) :
  (lo <= hi)%R -> (lo <= clamp x lo hi <= hi)%R.
Proof.
  intros Hlh. unfold clamp. split.
  - apply Rmin_glb; [apply Rmax_r|done].
  - apply Rmin_r.
Qed.

Lemma even_double (d : nat) : Nat.even (2 * d) = true /\ 2 * d / 2 = d.
Proof.
  split.
  - apply Nat.even_spec. by exists d.
  - rewrite Nat.mul_comm. by apply Nat.div_mul.
Qed.

Lemma torch_chunk2_double (row : list R) (d : nat) :
  length row = 2 * d ->
  torch_chunk2 row = Some (take d row, drop d row).
Proof.
  intros Hlen. unfold torch_chunk2. rewrite Hlen.
  destruct (even_double d) as [-> ->]. done.
Qed.

Lemma mapM_chunk2_double (x : list (list R)) (d : nat) :
  Forall (fun row => length row = 2 * d) x ->
  mapM torch_chunk2 x = Some (map (fun row => (take d row, drop d row)) x).
Proof.
  intros Hrows. apply mapM_Some.
  induction Hrows as [|row x Hrow _ IH]; cbn [map]; constructor; [|done].
  by apply torch_chunk2_double.
Qed.

(** X18. On a batch whose rows have width [2 * d], the forward pass of a
    continuous actor returns the first [d] entries of each row as the mean
    and the last [d], each clamped, as the log-std: every log-std lies in
    [[-20, 2]], those already there are passed unchanged, and every
    standard deviation of the distribution built from them lies in
    [[exp(-20), exp(2)]], so it is positive. *)
Theorem Actor_forward_continuous (x : list (list R)) (d : nat) :
  Forall (fun row => length row = 2 * d) x ->
  exists mean log_std,
    Actor_forward false x = Some (MeanLogStd mean log_std) /\
    mean = map (take d) x /\
    log_std = map (fun row => map (fun ls => clamp ls (-20) 2) (drop d row)) x /\
    Forall (fun row => length row = d) mean /\
    Forall (fun row => length row = d) log_std /\
    Forall (Forall (fun ls => (-20 <= ls <= 2)%R)) log_std /\
    (forall ls, (-20 <= ls <= 2)%R -> clamp ls (-20) 2 = ls) /\
    Forall (Forall (fun n => (exp (-20) <= Normal.scale n <= exp 2)%R))
           (continuous_dist mean log_std).
Proof.
  intros Hrows. unfold Actor_forward.
  rewrite (mapM_chunk2_double x d Hrows). cbn [mbind option_bind].
  rewrite !map_map. cbn [fst snd].
  eexists _, _. split; [reflexivity|]. split; [done|]. split; [done|].
  assert (Hbounds : Forall (Forall (fun ls => (-20 <= ls <= 2)%R))
            (map (fun row => map (fun ls => clamp ls (-20) 2) (drop d row)) x)).
  { apply Forall_map, Forall_true. intros row.
    apply Forall_map, Forall_true. intros ls. cbn.
    apply clamp_bounds. lra. }
  split.
  { apply Forall_map. eapply Forall_impl; [exact Hrows|]. cbn.
    intros row Hrow. rewrite length_take. lia. }
  split.
  { apply Forall_map. eapply Forall_impl; [exact Hrows|]. cbn.
    intros row Hrow. rewrite length_map, length_drop. lia. }
  split; [done|]. split.
  { intros ls [Hlo Hhi]. by apply clamp_inside. }
  unfold continuous_dist.
  clear Hrows. induction x as [|row x IH]; cbn [map zip_with]; [constructor|].
  constructor.
  - apply Forall_inv in Hbounds.
    generalize dependent (map (fun ls => clamp ls (-20) 2) (drop d row)).
    intros lss Hlss. generalize (take d row). intros ms. revert ms.
    induction Hlss as [|ls lss [Hlo Hhi] _ IHl]; intros [|m ms];
      cbn [zip_with]; try constructor; [|by apply IHl].
    cbn [Normal.scale]. split.
    + destruct (Rle_lt_or_eq_dec _ _ Hlo) as [Hlt| <-]; [|lra].
      left. by apply exp_increasing.
    + destruct (Rle_lt_or_eq_dec _ _ Hhi) as [Hlt| ->]; [|lra].
      left. by apply exp_increasing.
  - apply IH. by apply Forall_inv_tail in Hbounds.
Qed.

Lemma Actor_forward_continuous_witness :
  exists mean log_std,
    Actor_forward false [[1; 2; 30; -40]%R] = Some (MeanLogStd mean log_std) /\
    mean = map (take 2) [[1; 2; 30; -40]%R] /\
    log_std = map (fun row => map (fun ls => clamp ls (-20) 2) (drop 2 row))
                  [[1; 2; 30; -40]%R] /\
    Forall (fun row => length row = 2) mean /\
    Forall (fun row => length row = 2) log_std /\
    Forall (Forall (fun ls => (-20 <= ls <= 2)%R)) log_std /\
    (forall ls, (-20 <= ls <= 2)%R -> clamp ls (-20) 2 = ls) /\
    Forall (Forall (fun n => (exp (-20) <= Normal.scale n <= exp 2)%R))
           (continuous_dist mean log_std).
Proof.
  apply (Actor_forward_continuous [[1; 2; 30; -40]%R] 2).
  constructor; [reflexivity|constructor].
Defined.

(** X19. The width that [Actor.__init__] gives the last layer fits the
    distribution built from its output, for the layout the constructor
    derives from a [Discrete] space, from a box with at least one axis, or
    from a [MultiDiscrete] space whose [nvec] is a flat vector, the only
    kind that [ActionSpace] holds: a row of that width splits into one
    categorical per action dimension for a discrete layout, and chunks into
    a mean and a log-std of [action_dim] entries each for a continuous one.
    Nothing is stated about a [MultiDiscrete] space whose [nvec] has several
    axes. *)
Theorem actor_width_fits_distribution (space : ActionSpace)
    (layout : ActionLayout) (row : list R) :
  init_action_space space = inr layout ->
  length row = actor_out_features layout ->
  if discrete layout then
    exists m,
      MultiCategorical.init row (default [] (n_logits layout)) = Some m /\
      length (MultiCategorical.categoricals m) = action_dim layout
  else
    exists mean log_std,
      torch_chunk2 row = Some (mean, log_std) /\
      length mean = action_dim layout /\
      length log_std = action_dim layout.
Proof.
  intros Hinit Hlen.
  destruct space as [nvec|n|[|d shape]|name]; cbn in Hinit; try done;
    injection Hinit as <-; cbn [discrete n_logits action_dim default] in *;
    unfold actor_out_features in Hlen;
    cbn [discrete n_logits action_dim default] in Hlen.
  - eexists. split; [by apply multicategorical_init_dims|].
    cbn. by rewrite length_map, length_seq.
  - eexists. split; [by apply multicategorical_init_dims|]. done.
  - rewrite (torch_chunk2_double row d) by lia.
    eexists _, _. split; [done|].
    rewrite length_take, length_drop. lia.
Qed.

Lemma actor_width_fits_distribution_witness :
  exists m,
    MultiCategorical.init [0; 0; 0]%R [3] = Some m /\
    length (MultiCategorical.categoricals m) = 1.
Proof.
  apply (actor_width_fits_distribution (Discrete 3)
           {| n_logits := Some [3]; action_dim := 1; discrete := true |}
           [0; 0; 0]%R); reflexivity.
Defined.

(** ** More on the factored discrete distribution *)

(** The chunks of [torch_split] have the given sizes and concatenate to
    the input. *)
Lemma torch_split_partition (sizes : list nat) (l : list R) chunks :
  torch_split l sizes = Some chunks ->
  Forall2 (fun n chunk => length chunk = n) sizes chunks /\
  concat chunks = l.
Proof.
  revert l chunks. induction sizes as [|n sizes IH]; intros l chunks.
  - destruct l; [|done]. intros [= <-]. by split; [constructor|].
  - cbn [torch_split]. case_decide as Hn; [|done].
    destruct (torch_split (drop n l) sizes) as [rest|] eqn:Hrest; [|done].
    intros [= <-]. destruct (IH _ _ Hrest) as [Hsizes Hconcat]. split.
    + constructor; [|done]. rewrite length_take. lia.
    + cbn [concat]. rewrite Hconcat. apply take_drop.
Qed.

(** X20. A [MultiCategorical] can be built exactly from logits whose number
    is the sum of the cardinalities; on any other pair [torch.split]
    raises.  What is built keeps every logit: its chunks have the sizes
    [nvec] and concatenate to the logits given, with one categorical per
    chunk. *)
Theorem multicategorical_init_defined (logits : list R) (nvec : list nat) :
  (is_Some (MultiCategorical.init logits nvec) <->
   sum_list nvec = length logits) /\
  (forall m,
     MultiCategorical.init logits nvec = Some m ->
     MultiCategorical.nvec m = nvec /\
     Forall2 (fun n chunk => length chunk = n) nvec
             (MultiCategorical.split_logits m) /\
     concat (MultiCategorical.split_logits m) = logits /\
     MultiCategorical.categoricals m
       = map Categorical.init (MultiCategorical.split_logits m)).
Proof.
  split.
  - split.
    + intros [m Hm]. unfold MultiCategorical.init in Hm.
      destruct (torch_split logits nvec) as [split|] eqn:Hsplit; [|done].
      by apply torch_split_sum in Hsplit.
    + intros Hsum. rewrite multicategorical_init_dims by done. by eexists.
  - intros m Hm. unfold MultiCategorical.init in Hm.
    destruct (torch_split logits nvec) as [split|] eqn:Hsplit; [|done].
    injection Hm as <-. cbn.
    destruct (torch_split_partition _ _ _ Hsplit). by repeat split.
Qed.

(** *** Signs *)

Lemma exp_le_sum (l : list R) (i : nat) (x : R) :
  l !! i = Some x -> (exp x <= tensor_sum (map exp l))%R.
Proof.
  assert (Hpos : forall k : list R, (0 <= tensor_sum (map exp k))%R).
  { unfold tensor_sum. induction k as [|y k IH]; cbn [map foldr]; [lra|].
    pose proof (exp_pos y). lra. }
  revert i. induction l as [|y l IH]; intros [|i] Hi; try done.
  - injection Hi as ->. unfold tensor_sum. cbn [map foldr].
    pose proof (Hpos l) as Hl. unfold tensor_sum in Hl. lra.
  - cbn in Hi. apply IH in Hi. unfold tensor_sum in *. cbn [map foldr].
    pose proof (exp_pos y). lra.
Qed.

(** A normalized logit is the raw logit shifted, and is not positive. *)
Lemma categorical_log_prob_shift (raw : list R) (a : nat) (lp : R) :
  Categorical.log_prob (Categorical.init raw) a = Some lp <->
  exists x, raw !! a = Some x /\ lp = (x - Categorical.logsumexp raw)%R.
Proof.
  unfold Categorical.log_prob, Categorical.init. cbn [Categorical.logits].
  rewrite lookup_map. destruct (raw !! a) as [x|]; cbn.
  - split; [intros [= <-]; by exists x|intros (y & [= <-] & ->); done].
  - split; [done|by intros (y & ? & _)].
Qed.

Lemma categorical_log_prob_nonpos (raw : list R) (a : nat) (lp : R) :
  Categorical.log_prob (Categorical.init raw) a = Some lp -> (lp <= 0)%R.
Proof.
  intros (x & Hx & ->)%categorical_log_prob_shift.
  pose proof (exp_le_sum raw a x Hx) as Hle.
  unfold Categorical.logsumexp.
  assert (x <= ln (tensor_sum (map exp raw)))%R; [|lra].
  rewrite <- (ln_exp x) at 1.
  destruct (Rle_lt_or_eq_dec _ _ Hle) as [Hlt|Heq].
  - left. apply ln_increasing; [apply exp_pos|done].
  - rewrite Heq. lra.
Qed.

Lemma min_real_neg : (Categorical.min_real < 0)%R.
Proof.
  unfold Categorical.min_real.
  assert (0 < 2 ^ 127)%R by (apply pow_lt; lra).
  assert (0 < 2 ^ 23)%R by (apply pow_lt; lra).
  assert (/ 2 ^ 23 < 1)%R.
  { rewrite <- Rinv_1. apply Rinv_lt_contravar; [lra|].
    apply Rlt_pow_R1; [lra|lia]. }
  nra.
Qed.

Lemma tensor_sum_products_nonpos (a b : list R) :
  Forall (fun x => (x <= 0)%R) a ->
  Forall (fun y => (0 <= y)%R) b ->
  (tensor_sum (zip_with Rmult a b) <= 0)%R.
Proof.
  intros Ha. revert b. unfold tensor_sum.
  induction Ha as [|x a Hx _ IH]; intros b Hb; [cbn; lra|].
  destruct Hb as [|y b Hy Hb]; cbn [zip_with foldr]; [lra|].
  specialize (IH b Hb). nra.
Qed.

Lemma categorical_entropy_nonneg (raw : list R) :
  (0 <= Categorical.entropy (Categorical.init raw))%R.
Proof.
  unfold Categorical.entropy.
  assert (tensor_sum
            (zip_with Rmult
               (map (fun x => Rmax x Categorical.min_real)
                    (Categorical.logits (Categorical.init raw)))
               (Categorical.probs (Categorical.init raw))) <= 0)%R; [|lra].
  apply tensor_sum_products_nonpos.
  - apply Forall_map. apply Forall_lookup. intros i lg Hlg. cbn.
    apply Rmax_lub; [|left; apply min_real_neg].
    by apply (categorical_log_prob_nonpos raw i).
  - unfold Categorical.probs, Categorical.softmax.
    cbn zeta. apply Forall_map, Forall_true. intros x. cbn beta.
    set (l := Categorical.logits (Categorical.init raw)).
    assert (Hz : (0 <= tensor_sum (map exp l))%R).
    { clearbody l. unfold tensor_sum.
      induction l as [|y k IH]; cbn [map foldr]; [lra|].
      pose proof (exp_pos y). lra. }
    pose proof (exp_pos x). set (z := tensor_sum (map exp l)) in *.
    destruct (Req_dec z 0) as [Hz0|Hz0].
    + rewrite Hz0. unfold Rdiv. rewrite Rinv_0. lra.
    + apply Rlt_le, Rdiv_lt_0_compat; lra.
Qed.

Lemma tensor_sum_nonpos (l : list R) :
  Forall (fun x => (x <= 0)%R) l -> (tensor_sum l <= 0)%R.
Proof.
  unfold tensor_sum. induction 1 as [|x l Hx _ IH]; cbn [foldr]; lra.
Qed.

Lemma tensor_sum_nonneg (l : list R) :
  Forall (fun x => (0 <= x)%R) l -> (0 <= tensor_sum l)%R.
Proof.
  unfold tensor_sum. induction 1 as [|x l Hx _ IH]; cbn [foldr]; lra.
Qed.

Lemma stack_sum_inv (xs : list R) (s : R) :
  stack_sum xs = Some s -> s = tensor_sum xs.
Proof. destruct xs; [done|]. by intros [= <-]. Qed.

(** X21. A [MultiCategorical] built from logits never gives a positive
    joint log-probability (no joint probability exceeds one) and never a
    negative joint entropy. *)
Theorem multicategorical_signs (logits : list R) (nvec : list nat)
    (m : MultiCategorical.t) :
  MultiCategorical.init logits nvec = Some m ->
  (forall actions s,
     MultiCategorical.log_prob m actions = Some s -> (s <= 0)%R) /\
  (forall h, MultiCategorical.entropy m = Some h -> (0 <= h)%R).
Proof.
  intros Hm. unfold MultiCategorical.init in Hm.
  destruct (torch_split logits nvec) as [split|]; [|done].
  injection Hm as <-. split.
  - intros actions s. unfold MultiCategorical.log_prob.
    cbn [MultiCategorical.categoricals].
    intros (lps & Hlps%mapM_Some & ->%stack_sum_inv)%bind_Some.
    apply tensor_sum_nonpos.
    apply Forall_lookup. intros i lp Hlp.
    destruct (Forall2_lookup_r _ _ _ _ _ Hlps Hlp) as (o & Ho & Hsome).
    rewrite list_lookup_imap in Ho.
    change (map ?f ?l) with (f <$> l) in Ho. rewrite list_lookup_fmap in Ho.
    destruct (split !! i) as [raw|]; [|done]. cbn in Ho.
    injection Ho as <-. cbn in Hsome.
    apply bind_Some in Hsome as (a & _ & Ha).
    by apply categorical_log_prob_nonpos in Ha.
  - intros h. unfold MultiCategorical.entropy.
    cbn [MultiCategorical.categoricals].
    intros ->%stack_sum_inv. apply tensor_sum_nonneg.
    rewrite map_map. apply Forall_map, Forall_true. intros raw. cbn.
    apply categorical_entropy_nonneg.
Qed.

Lemma multicategorical_signs_witness :
  (forall actions s,
     MultiCategorical.log_prob
       {| MultiCategorical.nvec := [2];
          MultiCategorical.split_logits := [[0; 1]%R];
          MultiCategorical.categoricals := [Categorical.init [0; 1]%R] |}
       actions = Some s -> (s <= 0)%R) /\
  (forall h,
     MultiCategorical.entropy
       {| MultiCategorical.nvec := [2];
          MultiCategorical.split_logits := [[0; 1]%R];
          MultiCategorical.categoricals := [Categorical.init [0; 1]%R] |}
     = Some h -> (0 <= h)%R).
Proof.
  apply (multicategorical_signs [0; 1]%R [2]). reflexivity.
Defined.

(** *** The mode *)

Lemma tensor_sum_le (xs ys : list R) :
  Forall2 Rle xs ys -> (tensor_sum xs <= tensor_sum ys)%R.
Proof.
  unfold tensor_sum. induction 1 as [|x y xs ys Hxy _ IH]; cbn [foldr]; lra.
Qed.

(** Entry [i] of the list of per-dimension log-probabilities that
    [MultiCategorical.log_prob] stacks. *)
Lemma log_prob_entry (split : list (list R)) (actions : list nat) (i : nat) :
  imap (fun i dist => a ← actions !! i; Categorical.log_prob dist a)
       (map Categorical.init split) !! i
  = option_map (fun raw => a ← actions !! i;
                           Categorical.log_prob (Categorical.init raw) a)
               (split !! i).
Proof.
  rewrite list_lookup_imap, lookup_map. by destruct (split !! i).
Qed.

(** X22. The mode of a [MultiCategorical] is a most probable joint action:
    whenever [mode] returns, [log_prob] is defined at what it returns, and
    no action has a greater joint log-probability. *)
Theorem multicategorical_mode_most_probable (logits : list R)
    (nvec : list nat) (m : MultiCategorical.t) (modes : list nat) :
  MultiCategorical.init logits nvec = Some m ->
  MultiCategorical.mode m = Some modes ->
  exists best,
    MultiCategorical.log_prob m modes = Some best /\
    forall actions s,
      MultiCategorical.log_prob m actions = Some s -> (s <= best)%R.
Proof.
  intros Hm Hmode. unfold MultiCategorical.init in Hm.
  destruct (torch_split logits nvec) as [split|]; [|done].
  injection Hm as <-.
  unfold MultiCategorical.mode in Hmode.
  cbn [MultiCategorical.split_logits] in Hmode.
  apply bind_Some in Hmode as (ms & Hms%mapM_Some & Hstack).
  assert (ms = modes /\ modes <> []) as [-> Hne].
  { destruct ms; [done|]. by injection Hstack as <-. }
  clear Hstack.
  unfold MultiCategorical.log_prob. cbn [MultiCategorical.categoricals].
  set (entries := fun actions : list nat =>
         imap (fun i dist => a ← actions !! i; Categorical.log_prob dist a)
              (map Categorical.init split)).
  assert (Hentry : forall actions i o lp,
            entries actions !! i = Some o -> o = Some lp ->
            exists raw a y,
              split !! i = Some raw /\ actions !! i = Some a /\
              raw !! a = Some y /\
              lp = (y - Categorical.logsumexp raw)%R).
  { intros actions i o lp Ho ->. unfold entries in Ho.
    rewrite log_prob_entry in Ho.
    destruct (split !! i) as [raw|]; [|done]. cbn in Ho.
    injection Ho as Ho. apply bind_Some in Ho as (a & Ha & Hlp).
    apply categorical_log_prob_shift in Hlp as (y & Hy & ->).
    by exists raw, a, y. }
  assert (Hbests : is_Some (mapM (fun x => x) (entries modes))).
  { apply mapM_is_Some, Forall_lookup. intros i o Ho. cbn.
    unfold entries in Ho. rewrite log_prob_entry in Ho.
    destruct (split !! i) as [raw|] eqn:Hraw; [|done]. cbn in Ho.
    injection Ho as <-.
    destruct (Forall2_lookup_l _ _ _ _ _ Hms Hraw) as (k & Hk & Harg).
    rewrite Hk. cbn.
    apply argmax_greatest in Harg as (x & Hx & _).
    exists (x - Categorical.logsumexp raw)%R.
    apply categorical_log_prob_shift. by exists x. }
  destruct Hbests as [bests Hbests]. exists (tensor_sum bests).
  pose proof Hbests as Hb2. apply mapM_Some in Hb2.
  assert (Hlen : length (entries modes) = length split).
  { unfold entries. by rewrite length_imap, length_map. }
  split.
  { unfold entries in Hbests. rewrite Hbests.
    cbn [mbind option_bind]. apply stack_sum_Some.
    intros ->. apply Forall2_length in Hb2, Hms.
    rewrite Hlen in Hb2. destruct modes; [done|]. cbn in *. lia. }
  intros actions s (lps & Hlps%mapM_Some & ->%stack_sum_inv)%bind_Some.
  apply tensor_sum_le. apply Forall2_same_length_lookup_2.
  { apply Forall2_length in Hlps, Hb2. rewrite <- Hlps, <- Hb2.
    unfold entries. by rewrite !length_imap. }
  intros i lp b Hlp Hb.
  destruct (Forall2_lookup_r _ _ _ _ _ Hlps Hlp) as (o & Ho & Heq).
  destruct (Forall2_lookup_r _ _ _ _ _ Hb2 Hb) as (o' & Ho' & Heq').
  destruct (Hentry actions i o lp Ho Heq)
    as (raw & a & y & Hraw & Ha & Hy & ->).
  destruct (Hentry modes i o' b Ho' Heq')
    as (raw' & k & x & Hraw' & Hk & Hx & ->).
  rewrite Hraw in Hraw'. injection Hraw' as <-.
  destruct (Forall2_lookup_l _ _ _ _ _ Hms Hraw) as (k' & Hk' & Harg).
  rewrite Hk in Hk'. injection Hk' as <-.
  apply argmax_greatest in Harg as (x' & Hx' & Hgreatest & _).
  rewrite Hx in Hx'. injection Hx' as <-.
  pose proof (Hgreatest a y Hy). lra.
Qed.

Lemma multicategorical_mode_most_probable_witness :
  exists best,
    MultiCategorical.log_prob
      {| MultiCategorical.nvec := [2];
         MultiCategorical.split_logits := [[0; 0]%R];
         MultiCategorical.categoricals := [Categorical.init [0; 0]%R] |}
      [0] = Some best /\
    forall actions s,
      MultiCategorical.log_prob
        {| MultiCategorical.nvec := [2];
           MultiCategorical.split_logits := [[0; 0]%R];
           MultiCategorical.categoricals := [Categorical.init [0; 0]%R] |}
        actions = Some s -> (s <= best)%R.
Proof.
  apply (multicategorical_mode_most_probable [0; 0]%R [2]).
  - reflexivity.
  - unfold MultiCategorical.mode, argmax. cbn.
    destruct (Rlt_dec 0 0) as [Hlt|_]; [lra|reflexivity].
Defined.

(** ** The estimator on a rollout *)

(** X23. The estimator never raises on what [collect_rollout] returns: for
    every horizon, zero included, environment and policy, it yields as many
    advantages and returns as steps were collected. *)
Theorem rollout_gae_defined {T : Type} {arith : TensorArith T}
    {Obs Act EnvState Rng : Type}
    (env_reset : EnvState -> Obs * EnvState)
    (env_step : EnvState -> Act -> @StepResult T Obs * EnvState)
    (policy_sample : Rng -> Obs -> Act * T * Rng)
    (critic : Obs -> T) (gamma gae_lambda : T)
    (max_steps : nat) (e : EnvState) (g : Rng) :
  exists advantages returns,
    rollout_gae gamma gae_lambda
      (collect_rollout env_reset env_step policy_sample critic max_steps e g)
    = Some (advantages, returns) /\
    length advantages = max_steps /\ length returns = max_steps.
Proof.
  destruct (rollout_iter_collected env_reset env_step policy_sample critic
              max_steps e g) as (obs0 & passes & Hc).
  apply collected_lengths in Hc as (_ & _ & Hr & Hv & _ & Hd).
  unfold rollout_gae, collect_rollout. cbn [fst snd].
  set (c := Nat.iter max_steps _ _) in *.
  destruct (compute_gae_recursion gamma gae_lambda (rewards c) (values c)
              (map float_of_bool (dones c)) (critic (state c)))
    as (adv & ret & Hrun & Hlen & -> & _).
  - lia.
  - rewrite length_map. lia.
  - exists adv, (zip_with tadd adv (values c)). split; [done|].
    rewrite length_zip_with. lia.
Qed.

(** ** The camera callback *)

Lemma chunks_of_lookup {A} (n count : nat) (l : list A) (i : nat) :
  i < count ->
  chunks_of n count l !! i = Some (take n (drop (i * n) l)).
Proof.
  revert l i. induction count as [|count IH]; intros l [|i] Hi; try lia.
  - done.
  - cbn [chunks_of lookup list_lookup]. rewrite IH by lia.
    by rewrite drop_drop.
Qed.

Lemma length_chunks_of {A} (n count : nat) (l : list A) :
  length (chunks_of n count l) = count.
Proof.
  revert l. induction count as [|count IH]; intros l; cbn; [done|].
  by rewrite IH.
Qed.

(** X24. The camera callback accepts exactly the buffers of
    [height * width * 4] bytes, and then returns [height] rows of [width]
    pixels: the pixel in row [r] and column [c] holds the bytes at offsets
    [o + 2], [o + 1], [o] of the buffer, where [o = 4 * (r * width + c)]:
    the fourth byte of every pixel is dropped and the other three are
    reversed. *)
Theorem get_camera_img_pixels (height width : nat)
    (raw_data : list Byte.byte) :
  (is_Some (get_camera_img height width raw_data) <->
   length raw_data = height * width * 4) /\
  (forall img,
     get_camera_img height width raw_data = Some img ->
     length img = height /\
     forall r c, r < height -> c < width ->
       exists row b0 b1 b2,
         img !! r = Some row /\ length row = width /\
         raw_data !! (4 * (r * width + c)) = Some b0 /\
         raw_data !! (4 * (r * width + c) + 1) = Some b1 /\
         raw_data !! (4 * (r * width + c) + 2) = Some b2 /\
         row !! c = Some [b2; b1; b0]).
Proof.
  unfold get_camera_img. case_decide as Hlen.
  2: { split; [split; [by intros [? ?]|done]|done]. }
  split; [split; [done|by eexists]|].
  intros img [= <-]. rewrite !length_map, length_chunks_of.
  split; [done|]. intros r c Hr Hc.
  assert (Hoff : 4 * (r * width + c) + 3 < length raw_data) by nia.
  destruct (lookup_lt_is_Some_2 raw_data (4 * (r * width + c))) as [b0 Hb0];
    [lia|].
  destruct (lookup_lt_is_Some_2 raw_data (4 * (r * width + c) + 1))
    as [b1 Hb1]; [lia|].
  destruct (lookup_lt_is_Some_2 raw_data (4 * (r * width + c) + 2))
    as [b2 Hb2]; [lia|].
  eexists _, b0, b1, b2.
  rewrite !lookup_map, chunks_of_lookup by done. cbn [option_map].
  split; [reflexivity|].
  rewrite !length_map, length_chunks_of. split; [done|].
  split; [done|]. split; [done|]. split; [done|].
  rewrite !lookup_map, chunks_of_lookup by done. cbn [option_map].
  f_equal.
  set (px := take 4 (drop (c * 4) (take (width * 4) (drop (r * (width * 4)) raw_data)))).
  assert (Hpx : forall j, j < 4 ->
            px !! j = raw_data !! (4 * (r * width + c) + j)).
  { intros j Hj. unfold px.
    rewrite lookup_take, decide_True by lia. rewrite lookup_drop.
    rewrite lookup_take, decide_True by nia. rewrite lookup_drop.
    f_equal. lia. }
  assert (Hl : length px = 4).
  { unfold px. rewrite length_take, length_drop, length_take, length_drop.
    nia. }
  destruct px as [|p0 [|p1 [|p2 [|p3 [|p4 px]]]]]; cbn in Hl; try lia.
  pose proof (Hpx 0 ltac:(lia)) as H0. pose proof (Hpx 1 ltac:(lia)) as H1.
  pose proof (Hpx 2 ltac:(lia)) as H2.
  rewrite Nat.add_0_r, Hb0 in H0. rewrite Hb1 in H1. rewrite Hb2 in H2.
  injection H0 as ->. injection H1 as ->. injection H2 as ->.
  reflexivity.
Qed.
